(** * A shallow embedding of [.github/workflows/spellcheck.py]

    The script walks a directory tree, reads every [*.ipynb] notebook,
    strips the punctuation of its markdown cells, asks a spelling model
    which tokens it does not know, prints one line per offending notebook
    and leaves with status 1 when there is any.

    Python values are modelled as follows.
    - [str]: a sequence of Unicode code points, [list N].
    - [set] of [str]: [gset str]; its iteration order is the one of
      [elements], unspecified as in Python.
    - [dict]: an insertion-ordered association list with unique keys
      (module [Dict]), so that [items()] yields the pairs in the order in
      which the keys were first inserted.
    - exceptions, standard output, the log of opened files and the store
      holding mutable list objects: a state-and-exception monad [M]. *)

From Stdlib Require Import Strings.String Strings.Ascii NArith.
From stdpp Require Import gmap list fin_maps functions.

Local Open Scope N_scope.

(** ** Python strings *)

Module Py.

Abbreviation str := (list N) (only parsing).

(** A literal of the source, as the sequence of its code points. *)
Definition lit (s : string) : str :=
  N_of_ascii <$> list_ascii_of_string s.

(** [string.punctuation]: the 32 ASCII punctuation characters, in the
    order of the standard library (the second one is the double quote,
    code point 34). *)
Definition punctuation : str :=
  lit "!" ++ [34] ++ lit "#$%&'()*+,-./:;<=>?@[\]^_`{|}~".

(** [str.maketrans(x, y, z)]: a table from code points to an optional
    code point; the characters of [x] go to the characters of [y] at the
    same index, then the characters of [z] go to [None]. Later entries
    overwrite earlier ones. (Python refuses [x] and [y] of different
    lengths; the script passes two empty strings.) *)
Definition maketrans (x y z : str) : gmap N (option N) :=
  let tbl := foldl (λ m '(a, b), <[a := Some b]> m) ∅ (zip x y) in
  foldl (λ m c, <[c := None]> m) tbl z.

(** [text.translate(table)]: a character mapped to [None] is deleted, a
    character mapped to a code point is replaced, a character that is
    not a key of the table is kept as it is. *)
Definition translate (table : gmap N (option N)) (text : str) : str :=
  flat_map
    (λ c, match table !! c with
          | Some None => []
          | Some (Some c') => [c']
          | None => [c]
          end)
    text.

(** [str.isspace] on one character: the Unicode white space of CPython. *)
Definition isspace (c : N) : bool :=
  ((9 <=? c) && (c <=? 13)) || ((28 <=? c) && (c <=? 32))
  || (c =? 133) || (c =? 160) || (c =? 5760)
  || ((8192 <=? c) && (c <=? 8202))
  || (c =? 8232) || (c =? 8233) || (c =? 8239) || (c =? 8287)
  || (c =? 12288).

(** [text.split()] without argument: the maximal runs of characters that
    are not white space, in order; [cur] is the run being read, reversed. *)
Fixpoint split_from (cur : str) (text : str) : list str :=
  match text with
  | [] => match cur with [] => [] | _ => [rev cur] end
  | c :: rest =>
      if isspace c
      then match cur with
           | [] => split_from [] rest
           | _ => rev cur :: split_from [] rest
           end
      else split_from (c :: cur) rest
  end.

Definition split (text : str) : list str := split_from [] text.

(** [s.startswith(p)] and [s.endswith(p)]. *)
Definition startswith (s p : str) : bool :=
  bool_decide (take (length p) s = p).

Definition endswith (s p : str) : bool :=
  bool_decide (drop (length s - length p)%nat s = p).

(** [sep.join(xs)]. *)
Fixpoint join (sep : str) (xs : list str) : str :=
  match xs with
  | [] => []
  | [x] => x
  | x :: rest => x ++ sep ++ join sep rest
  end.

(** [os.path.join(a, b)] of [posixpath], for two arguments. *)
Definition path_join (a b : str) : str :=
  if startswith b (lit "/") then b
  else if bool_decide (a = []) || endswith a (lit "/") then a ++ b
  else a ++ lit "/" ++ b.

(** The lower-case mapping on ASCII code points. *)
Definition ascii_lower (c : N) : N :=
  if (65 <=? c) && (c <=? 90) then c + 32 else c.

Definition isascii (s : str) : bool := forallb (λ c, c <? 128) s.

End Py.

Import Py.

(** ** The text normalizer *)

(** [remove_punctuation(text)], lines 7 to 9. *)
Definition remove_punctuation (text : str) : str :=
  let translator := maketrans (lit "") (lit "") punctuation in
  translate translator text.


(** ** Python dictionaries with string keys *)

Module Dict.
Section Dict.
Context {V : Type}.

(** [d.get(k)] *)
Fixpoint get (k : str) (d : list (str * V)) : option V :=
  match d with
  | [] => None
  | (k', v) :: d' => if decide (k' = k) then Some v else get k d'
  end.

(** [k in d] *)
Definition contains (k : str) (d : list (str * V)) : bool :=
  bool_decide (is_Some (get k d)).

(** [d[k] = v]: an existing key keeps its place, a new one goes last. *)
Fixpoint set (k : str) (v : V) (d : list (str * V)) : list (str * V) :=
  match d with
  | [] => [(k, v)]
  | (k', v') :: d' =>
      if decide (k' = k) then (k, v) :: d' else (k', v') :: set k v d'
  end.

(** [d.update(other)] *)
Definition update (d other : list (str * V)) : list (str * V) :=
  foldl (λ acc '(k, v), set k v acc) d other.

(** [list(d.keys())] *)
Definition keys (d : list (str * V)) : list str := d.*1.

(** The truth value of a dictionary: it is not empty. *)
Definition truthy (d : list (str * V)) : bool :=
  match d with [] => false | _ => true end.

End Dict.
End Dict.

Abbreviation dict V := (list (str * V)) (only parsing).

(** The truth value of a set: it is not empty. *)
Definition set_truthy (s : gset str) : bool := bool_decide (s ≠ ∅).

(** ** Notebooks and the file system *)

(** A cell of a version 4 notebook as [nbformat.read] returns it: its
    [cell_type] ("markdown", "code", "raw", ...) and its [source]. *)
Record Cell := { cell_type : str; source : str }.

Record Notebook := { cells : list Cell }.

(** What [open] and [nbformat.read] raise on a file that is missing,
    unreadable, not UTF-8, not JSON or not a notebook. *)
Inductive io_error :=
| OSError
| UnicodeDecodeError
| NotJSONError
| ValidationError.

(** The file system, which the script only reads: [os_walk d] is the list
    of triples (directory, sub-directory names, file names) that
    [os.walk(d)] yields, [nb_read p] the result of opening [p] and of
    [nbformat.read] on it. *)
Record FileSystem := {
  os_walk : str → list (str * list str * list str);
  nb_read : str → io_error + Notebook
}.

(** ** Effects *)

Inductive exception :=
| IOFailure (e : io_error)
| SystemExit (code : Z).

(** The mutable part of the world: the lines printed so far, the paths
    opened so far, and the store of list objects ([heap], with the next
    free address). *)
Record World := {
  stdout : list str;
  opened : list str;
  heap : nat → list str;
  next_loc : nat
}.

Inductive result (A : Type) :=
| Ok (a : A)
| Raise (e : exception).
Arguments Ok {A} a.
Arguments Raise {A} e.

Definition M (A : Type) : Type := World → result A * World.

#[global] Instance M_ret : MRet M := λ A a w, (Ok a, w).

#[global] Instance M_bind : MBind M :=
  λ A B k m w, match m w with
               | (Ok a, w') => k a w'
               | (Raise e, w') => (Raise e, w')
               end.

Definition raise {A} (e : exception) : M A := λ w, (Raise e, w).

(** [for x in xs: s = body(s, x)], with the loop-carried variables [s]. *)
Fixpoint for_each {A S} (xs : list A) (body : S → A → M S) (s : S) : M S :=
  match xs with
  | [] => mret s
  | x :: rest => s' ← body s x; for_each rest body s'
  end.

(** [print(line)] *)
Definition print (line : str) : M unit :=
  λ w, (Ok tt, {| stdout := stdout w ++ [line]; opened := opened w;
                  heap := heap w; next_loc := next_loc w |}).

(** [sys.exit(code)] *)
Definition sys_exit {A} (code : Z) : M A := raise (SystemExit code).

(** Reading the elements of the list object at address [l]. *)
Definition deref (l : nat) : M (list str) := λ w, (Ok (heap w l), w).

(** A new list object. *)
Definition alloc (v : list str) : M nat :=
  λ w, (Ok (next_loc w),
        {| stdout := stdout w; opened := opened w;
           heap := <[next_loc w := v]> (heap w);
           next_loc := S (next_loc w) |}).

(** [with open(filepath, 'r', encoding='utf-8') as f:
       nb = nbformat.read(f, as_version=4)], lines 17 and 18. *)
Definition open_read (fs : FileSystem) (filepath : str) : M Notebook :=
  λ w, let w' := {| stdout := stdout w; opened := opened w ++ [filepath];
                    heap := heap w; next_loc := next_loc w |} in
       match nb_read fs filepath with
       | inl e => (Raise (IOFailure e), w')
       | inr nb => (Ok nb, w')
       end.

(** The status with which the interpreter leaves when the script ends
    with [r]: 0 after a normal end, the code of [sys.exit], 1 after any
    other uncaught exception. *)
Definition exit_status {A} (r : result A) : Z :=
  match r with
  | Ok _ => 0
  | Raise (SystemExit code) => code
  | Raise (IOFailure _) => 1
  end.

(** ** The spelling model and the two checking functions *)

Module Script.
Section Spellcheck.

(** [SpellChecker] comes from the [spellchecker] package, which is not
    part of the repository. It is modelled as the package behaves with
    the arguments of the script (language "en", not case sensitive): the
    words loaded and the tokens looked up are put in lower case. What the
    script does not determine is a parameter: the keys of the
    word-frequency list that [SpellChecker()] loads, [str.lower] outside
    ASCII, and the filter [_check_if_should_check] by which [unknown]
    skips some tokens (numbers, over-long tokens), which may look at the
    word-frequency list. *)
Variable en_dictionary : gset str.
Variable unicode_lower : str → str.
Variable should_check : gset str → str → bool.

Variable fs : FileSystem.

(** [s.lower()] *)
Definition lower (s : str) : str :=
  if isascii s then ascii_lower <$> s else unicode_lower s.

(** A [SpellChecker] object, reduced to the keys of its word-frequency
    list (the counts play no part in [unknown]). *)
Record SpellChecker := { dictionary : gset str }.

(** [SpellChecker()]: language "en", not case sensitive. *)
Definition new_SpellChecker : SpellChecker :=
  {| dictionary := en_dictionary |}.

(** [spell.word_frequency.load_words(words)]: every word is added in
    lower case. *)
Definition load_words (words : list str) (spell : SpellChecker)
  : SpellChecker :=
  {| dictionary := dictionary spell ∪ list_to_set (lower <$> words) |}.

(** [word in spell]: the look-up of the word-frequency list, which is in
    lower case. *)
Definition known (spell : SpellChecker) (word : str) : Prop :=
  lower word ∈ dictionary spell.

(** [spell.unknown(words)]: the tokens that pass the filter are put in
    lower case, and those that are not keys of the word-frequency list are
    returned, as a set. *)
Definition unknown (spell : SpellChecker) (words : list str) : gset str :=
  let tmp :=
    lower <$> filter (λ w, should_check (dictionary spell) w = true) words in
  list_to_set (filter (λ w, w ∉ dictionary spell) tmp).

(** The body of the loop over the cells, lines 21 to 28;
    [misspelled_words] is the loop-carried dictionary. *)
Definition check_cell (spell : SpellChecker) (filepath : str)
    (misspelled_words : dict (gset str)) (cell : Cell) : dict (gset str) :=
  if decide (cell_type cell = lit "markdown") then
    let text := remove_punctuation (source cell) in
    let misspelled := unknown spell (split text) in
    if set_truthy misspelled then
      let misspelled_words :=
        if Dict.contains filepath misspelled_words then misspelled_words
        else Dict.set filepath ∅ misspelled_words in
      let current := default ∅ (Dict.get filepath misspelled_words) in
      Dict.set filepath (current ∪ misspelled) misspelled_words
    else misspelled_words
  else misspelled_words.

(** [spell_check_notebook(filepath, ignore_words)], lines 11 to 30;
    [ignore_words] is the address of the list object that is passed. *)
Definition spell_check_notebook (filepath : str) (ignore_words : nat)
  : M (dict (gset str)) :=
  words ← deref ignore_words;
  let spell := load_words words new_SpellChecker in
  nb ← open_read fs filepath;
  mret (foldl (check_cell spell filepath) [] (cells nb)).

(** The body of the loop over the files of one directory, lines 36 to 40. *)
Definition visit_file (ignore_words : nat) (subdir : str)
    (all_misspelled_words : dict (gset str)) (file : str)
  : M (dict (gset str)) :=
  if endswith file (lit ".ipynb") then
    let filepath := path_join subdir file in
    result ← spell_check_notebook filepath ignore_words;
    if Dict.truthy result
    then mret (Dict.update all_misspelled_words result)
    else mret all_misspelled_words
  else mret all_misspelled_words.

(** The body of the loop over the triples of [os.walk], lines 34 and 35. *)
Definition visit_dir (ignore_words : nat)
    (all_misspelled_words : dict (gset str))
    (entry : str * list str * list str) : M (dict (gset str)) :=
  let '(subdir, dirs, files) := entry in
  for_each files (visit_file ignore_words subdir) all_misspelled_words.

(** The traversal, lines 33 to 40: the aggregate it ends with. *)
Definition traverse (directory : str) (ignore_words : nat)
  : M (dict (gset str)) :=
  for_each (os_walk fs directory) (visit_dir ignore_words) [].

(** The line printed for one entry of the aggregate, line 44. *)
Definition report_line (item : str * gset str) : str :=
  let '(filepath, words) := item in
  lit "Misspelled words in " ++ filepath ++ lit ": "
  ++ join (lit ", ") (elements words).

(** The end of [spell_check_directory], lines 42 to 45. *)
Definition report (all_misspelled_words : dict (gset str)) : M unit :=
  if Dict.truthy all_misspelled_words then
    for_each all_misspelled_words (λ _ item, print (report_line item)) tt;;
    sys_exit 1
  else mret tt.

(** [spell_check_directory(directory, ignore_words)], lines 32 to 45. *)
Definition spell_check_directory (directory : str) (ignore_words : nat)
  : M unit :=
  all_misspelled_words ← traverse directory ignore_words;
  report all_misspelled_words.

(** The script run as a program, lines 47 to 49. *)
Definition main : M unit :=
  ignore_list ← alloc [];
  spell_check_directory (lit ".") ignore_list.

(** ** Notions used to state the properties *)

(** The world after the files [log] have been opened, in this order. *)
Definition log_opened (log : list str) (w : World) : World :=
  {| stdout := stdout w; opened := opened w ++ log;
     heap := heap w; next_loc := next_loc w |}.

(** The world after the lines [lines] have been printed, in this order. *)
Definition print_lines (lines : list str) (w : World) : World :=
  {| stdout := stdout w ++ lines; opened := opened w;
     heap := heap w; next_loc := next_loc w |}.

(** The tokens of a cell: what line 24 passes to [spell.unknown]. *)
Definition tokens (cell : Cell) : list str :=
  split (remove_punctuation (source cell)).

(** The words that the loop of lines 20 to 28 collects from [cells]. *)
Definition unknown_in (spell : SpellChecker) (cells : list Cell) : gset str :=
  ⋃ ((λ cell, unknown spell (tokens cell))
       <$> filter (λ cell, cell_type cell = lit "markdown") cells).

(** The spelling model of a check: the default one, seeded with the
    words of the ignore list. *)
Definition seeded (ignore : list str) : SpellChecker :=
  load_words ignore new_SpellChecker.

(** What [spell_check_notebook] computes from the notebook it has read. *)
Definition check_notebook (ignore : list str) (filepath : str)
    (nb : Notebook) : dict (gset str) :=
  foldl (check_cell (seeded ignore) filepath) [] (cells nb).

(** The notebook has a markdown cell with a token that is absent from
    the default spelling model and from the ignore list. *)
Definition has_absent_token (ignore : list str) (nb : Notebook) : Prop :=
  ∃ cell t, cell ∈ cells nb ∧ cell_type cell = lit "markdown"
            ∧ t ∈ tokens cell
            ∧ ¬ known new_SpellChecker t ∧ t ∉ ignore.

(** The notebook has a misspelling for the checker: a markdown cell with
    a token that the checker does not skip and that the seeded model does
    not know. *)
Definition has_misspelling (ignore : list str) (nb : Notebook) : Prop :=
  ∃ cell t, cell ∈ cells nb ∧ cell_type cell = lit "markdown"
            ∧ t ∈ tokens cell
            ∧ should_check (dictionary (seeded ignore)) t = true
            ∧ ¬ known (seeded ignore) t.

(** The pairs (directory, file name) in the order in which the two loops
    of lines 34 and 35 meet them. *)
Definition walk_files (entries : list (str * list str * list str))
  : list (str * str) :=
  entries ≫= λ '(subdir, _, files), (λ file, (subdir, file)) <$> files.

(** The paths that are passed to [spell_check_notebook] for the pairs
    [files], line 37. *)
Definition paths_of (files : list (str * str)) : list str :=
  (λ '(subdir, file), path_join subdir file)
    <$> filter (λ '(_, file), endswith file (lit ".ipynb") = true) files.

(** The paths that [spell_check_directory] passes to
    [spell_check_notebook], in order. *)
Definition notebook_paths (entries : list (str * list str * list str))
  : list str :=
  paths_of (walk_files entries).

(** The aggregate after the first [n] files of the traversal. *)
Definition aggregate_after (n : nat) (directory : str) (ignore_words : nat)
  : M (dict (gset str)) :=
  for_each (take n (walk_files (os_walk fs directory)))
    (λ all '(subdir, file), visit_file ignore_words subdir all file) [].

(** The traversal over the notebook paths without the monad: the result
    and the files opened, from the aggregate [all]. *)
Fixpoint run_paths (ignore : list str) (paths : list str)
    (all : dict (gset str)) : result (dict (gset str)) * list str :=
  match paths with
  | [] => (Ok all, [])
  | p :: rest =>
      match nb_read fs p with
      | inl e => (Raise (IOFailure e), [p])
      | inr nb =>
          let r := check_notebook ignore p nb in
          let all' := if Dict.truthy r then Dict.update all r else all in
          let '(res, log) := run_paths ignore rest all' in
          (res, p :: log)
      end
  end.

(** The words that the check of the document at [p] collects: none when
    the document cannot be read. *)
Definition words_at (ignore : list str) (p : str) : gset str :=
  match nb_read fs p with
  | inr nb => unknown_in (seeded ignore) (cells nb)
  | inl _ => ∅
  end.

(** The aggregate expected for the notebooks at [paths]: the documents
    for which words are collected, in the order of [paths], each with its
    words. *)
Definition expected_report (ignore : list str) (paths : list str)
  : dict (gset str) :=
  (λ p, (p, words_at ignore p))
    <$> filter (λ p, words_at ignore p ≠ ∅) paths.

End Spellcheck.
End Script.

Import Script.

(** The dictionary that holds the set [words] for [filepath] when the
    set is not empty, and nothing otherwise. *)
Definition entry_for (filepath : str) (words : gset str) : dict (gset str) :=
  if decide (words = ∅) then [] else [(filepath, words)].

(** ** A small tree, to run the script on *)

Module Sample.

Definition en : gset str := {[ lit "hello"; lit "world" ]}.

Definition checks_all : gset str → str → bool := λ _ _, true.

Definition good : Notebook :=
  {| cells := [ {| cell_type := lit "markdown"; source := lit "Hello, world!" |};
                {| cell_type := lit "code"; source := lit "prnt(x)" |} ] |}.

Definition bad : Notebook :=
  {| cells := [ {| cell_type := lit "markdown"; source := lit "Helllo wrold" |} ] |}.

Definition code_only : Notebook :=
  {| cells := [ {| cell_type := lit "code"; source := lit "prnt(x)" |} ] |}.

Definition good_path : str := lit "./good.ipynb".
Definition bad_path : str := lit "./sub/bad.ipynb".
Definition code_path : str := lit "./code.ipynb".
Definition broken_path : str := lit "./sub/broken.ipynb".

Definition read (p : str) : io_error + Notebook :=
  if decide (p = good_path) then inr good
  else if decide (p = bad_path) then inr bad
  else if decide (p = code_path) then inr code_only
  else if decide (p = broken_path) then inl NotJSONError
  else inl OSError.

(** [.] holds [good.ipynb], [README.md] and the directory [sub], which
    holds [bad.ipynb]; [broken] is the same tree with [sub/broken.ipynb]
    in front of [sub/bad.ipynb]; [docs] holds no notebook. *)
Definition fs : FileSystem :=
  {| os_walk d :=
       if decide (d = lit ".") then
         [ (lit ".", [lit "sub"], [lit "good.ipynb"; lit "README.md"]);
           (lit "./sub", [], [lit "bad.ipynb"]) ]
       else if decide (d = lit "broken") then
         [ (lit ".", [lit "sub"], [lit "good.ipynb"; lit "README.md"]);
           (lit "./sub", [], [lit "broken.ipynb"; lit "bad.ipynb"]) ]
       else if decide (d = lit "docs") then
         [ (lit "docs", [], [lit "README.md"]) ]
       else [];
     nb_read := read |}.

(** A world in which nothing was printed or opened, with the empty list
    at address 0 and the list ["Helllo"; "wrold"] at address 1. *)
Definition w0 : World :=
  {| stdout := []; opened := [];
     heap := λ l, match l with 1%nat => [lit "Helllo"; lit "wrold"] | _ => [] end;
     next_loc := 2 |}.

End Sample.

(** ** A second tree: two notebooks with the same markdown cells *)

Module Sample2.

Definition first : Notebook :=
  {| cells := [ {| cell_type := lit "markdown"; source := lit "Helllo, there" |};
                {| cell_type := lit "code"; source := lit "wrold = 1" |};
                {| cell_type := lit "markdown"; source := lit "NumPy rocks!" |} ] |}.

Definition second : Notebook :=
  {| cells := [ {| cell_type := lit "markdown"; source := lit "NumPy rocks!" |};
                {| cell_type := lit "raw"; source := lit "zzzz" |};
                {| cell_type := lit "markdown"; source := lit "Helllo, there" |} ] |}.

Definition first_path : str := lit "a/first.ipynb".
Definition second_path : str := lit "a/second.ipynb".

Definition fs : FileSystem :=
  {| os_walk d := [ (lit "a", [], [lit "first.ipynb"; lit "second.ipynb"]) ];
     nb_read p :=
       if decide (p = first_path) then inr first
       else if decide (p = second_path) then inr second
       else inl OSError |}.

(** A world with the list ["HELLLO"; "There"; "numpy"; "ROCKS"] at
    address 0. *)
Definition w0 : World :=
  {| stdout := []; opened := [];
     heap := λ _, [lit "HELLLO"; lit "There"; lit "numpy"; lit "ROCKS"];
     next_loc := 1 |}.

End Sample2.

(** * Properties *)

(** ** The text normalizer *)

Lemma lookup_delete_table (z : str) (tbl : gmap N (option N)) (c : N) :
  foldl (λ m c, <[c := None]> m) tbl z !! c
  = if decide (c ∈ z) then Some None else tbl !! c.
Proof.
  revert tbl. induction z as [|a z IH]; intros tbl.
  - destruct (decide (c ∈ [])) as [Hin|_]; [by apply elem_of_nil in Hin | done].
  - cbn [foldl]. rewrite IH, lookup_insert.
    destruct (decide (a = c)) as [->|Hne].
    + rewrite (decide_True (P := c ∈ c :: z)) by (by left).
      by destruct (decide (c ∈ z)).
    + destruct (decide (c ∈ z)) as [Hz|Hz].
      * by rewrite decide_True by (by right).
      * rewrite decide_False; [done|]. rewrite elem_of_cons. by intros [?|?].
Qed.

Lemma maketrans_delete_only (z : str) :
  maketrans [] [] z = foldl (λ m c, <[c := None]> m) ∅ z.
Proof. reflexivity. Qed.

Lemma translator_lookup (c : N) :
  maketrans (lit "") (lit "") punctuation !! c
  = if decide (c ∈ punctuation) then Some None else None.
Proof.
  change (lit "") with (@nil N).
  by rewrite maketrans_delete_only, lookup_delete_table, lookup_empty.
Qed.

Lemma translate_cons (table : gmap N (option N)) (c : N) (text : str) :
  translate table (c :: text)
  = match table !! c with
    | Some None => []
    | Some (Some c') => [c']
    | None => [c]
    end ++ translate table text.
Proof. reflexivity. Qed.

Lemma remove_punctuation_filter (text : str) :
  remove_punctuation text = filter (λ c, c ∉ punctuation) text.
Proof.
  unfold remove_punctuation. cbv zeta.
  induction text as [|c text IH]; [done|].
  rewrite translate_cons, IH, translator_lookup.
  destruct (decide (c ∈ punctuation)) as [Hc|Hc].
  - by rewrite filter_cons_False by tauto.
  - by rewrite filter_cons_True.
Qed.

(** C1. [remove_punctuation] is defined on every string and returns its
    argument without the characters of [string.punctuation]: the other
    characters are kept, unchanged and in order. The empty string is
    mapped to the empty string. *)
Theorem remove_punctuation_exact (text : str) :
  remove_punctuation text = filter (λ c, c ∉ punctuation) text
  ∧ (∀ c, c ∈ remove_punctuation text ↔ c ∈ text ∧ c ∉ punctuation)
  ∧ remove_punctuation text `sublist_of` text
  ∧ remove_punctuation [] = [].
Proof.
  rewrite remove_punctuation_filter. split_and!.
  - done.
  - intros c. rewrite list_elem_of_filter. tauto.
  - apply sublist_filter.
  - done.
Qed.

(** C9. [remove_punctuation] is idempotent. *)
Theorem remove_punctuation_idempotent (s : str) :
  remove_punctuation (remove_punctuation s) = remove_punctuation s.
Proof.
  rewrite !remove_punctuation_filter.
  induction s as [|c s IH]; [done|].
  destruct (decide (c ∉ punctuation)) as [Hc|Hc].
  - rewrite filter_cons_True by done. rewrite filter_cons_True by done.
    by rewrite IH.
  - by rewrite filter_cons_False by done.
Qed.

(** ** The notebook checker, as a function of the notebook read *)

Section Properties.

Context (en_dictionary : gset str) (unicode_lower : str → str)
        (should_check : gset str → str → bool) (fs : FileSystem).

Local Abbreviation lower :=
  (Script.lower unicode_lower) (only parsing).
Local Abbreviation new_SpellChecker :=
  (Script.new_SpellChecker en_dictionary) (only parsing).
Local Abbreviation load_words :=
  (Script.load_words unicode_lower) (only parsing).
Local Abbreviation known :=
  (Script.known unicode_lower) (only parsing).
Local Abbreviation unknown :=
  (Script.unknown unicode_lower should_check) (only parsing).
Local Abbreviation check_cell :=
  (Script.check_cell unicode_lower should_check) (only parsing).
Local Abbreviation unknown_in :=
  (Script.unknown_in unicode_lower should_check) (only parsing).
Local Abbreviation seeded :=
  (Script.seeded en_dictionary unicode_lower) (only parsing).
Local Abbreviation check_notebook :=
  (Script.check_notebook en_dictionary unicode_lower should_check) (only parsing).
Local Abbreviation has_absent_token :=
  (Script.has_absent_token en_dictionary unicode_lower) (only parsing).
Local Abbreviation has_misspelling :=
  (Script.has_misspelling en_dictionary unicode_lower should_check) (only parsing).
Local Abbreviation spell_check_notebook :=
  (Script.spell_check_notebook en_dictionary unicode_lower should_check fs)
  (only parsing).
Local Abbreviation visit_file :=
  (Script.visit_file en_dictionary unicode_lower should_check fs) (only parsing).
Local Abbreviation visit_dir :=
  (Script.visit_dir en_dictionary unicode_lower should_check fs) (only parsing).
Local Abbreviation traverse :=
  (Script.traverse en_dictionary unicode_lower should_check fs) (only parsing).
Local Abbreviation aggregate_after :=
  (Script.aggregate_after en_dictionary unicode_lower should_check fs) (only parsing).
Local Abbreviation run_paths :=
  (Script.run_paths en_dictionary unicode_lower should_check fs) (only parsing).
Local Abbreviation spell_check_directory :=
  (Script.spell_check_directory en_dictionary unicode_lower should_check fs)
  (only parsing).
Local Abbreviation main :=
  (Script.main en_dictionary unicode_lower should_check fs) (only parsing).
Local Abbreviation words_at :=
  (Script.words_at en_dictionary unicode_lower should_check fs) (only parsing).
Local Abbreviation expected_report :=
  (Script.expected_report en_dictionary unicode_lower should_check fs)
  (only parsing).

Lemma spell_check_notebook_run (filepath : str) (ign : nat) (w : World) :
  spell_check_notebook filepath ign w
  = (match nb_read fs filepath with
     | inl e => Raise (IOFailure e)
     | inr nb => Ok (check_notebook (heap w ign) filepath nb)
     end, log_opened [filepath] w).
Proof.
  unfold Script.spell_check_notebook, mbind, M_bind, deref, open_read.
  by destruct (nb_read fs filepath).
Qed.

Lemma unknown_in_cons (spell : SpellChecker) (cell : Cell) (cs : list Cell) :
  unknown_in spell (cell :: cs)
  = (if decide (cell_type cell = lit "markdown")
     then unknown spell (tokens cell) else ∅) ∪ unknown_in spell cs.
Proof.
  unfold Script.unknown_in.
  destruct (decide (cell_type cell = lit "markdown")) as [Hm|Hm].
  - by rewrite filter_cons_True by done.
  - rewrite filter_cons_False by done. by rewrite (left_id_L ∅ (∪)).
Qed.

Lemma check_cell_entry (spell : SpellChecker) (p : str) (ws : gset str)
    (cell : Cell) :
  check_cell spell p (entry_for p ws) cell
  = entry_for p (ws ∪ (if decide (cell_type cell = lit "markdown")
                       then unknown spell (tokens cell) else ∅)).
Proof.
  unfold Script.check_cell. fold (tokens cell).
  destruct (decide (cell_type cell = lit "markdown")) as [Hm|Hm];
    [|by rewrite (right_id_L ∅ (∪))].
  cbv zeta. unfold set_truthy.
  destruct (decide (unknown spell (tokens cell) = ∅)) as [Hu|Hu].
  { rewrite bool_decide_eq_false_2 by (intros H; by apply H).
    by rewrite Hu, (right_id_L ∅ (∪)). }
  rewrite bool_decide_eq_true_2 by done.
  unfold entry_for.
  rewrite (decide_False (P := ws ∪ _ = ∅)) by set_solver.
  destruct (decide (ws = ∅)) as [->|Hws].
  - unfold Dict.contains. cbn [Dict.get Dict.set].
    rewrite bool_decide_eq_false_2 by (by intros [? ?]).
    cbn [Dict.get Dict.set]. rewrite !decide_True by done. done.
  - unfold Dict.contains. cbn [Dict.get Dict.set].
    rewrite !decide_True by done.
    rewrite ?bool_decide_eq_true_2 by eauto.
    cbn [Dict.get Dict.set default]. by rewrite ?decide_True by done.
Qed.

Lemma foldl_check_cell (spell : SpellChecker) (p : str) (cs : list Cell)
    (ws : gset str) :
  foldl (check_cell spell p) (entry_for p ws) cs
  = entry_for p (ws ∪ unknown_in spell cs).
Proof.
  revert ws. induction cs as [|cell cs IH]; intros ws.
  - unfold Script.unknown_in. cbn. by rewrite (right_id_L ∅ (∪)).
  - cbn [foldl]. rewrite check_cell_entry, IH, unknown_in_cons.
    by rewrite (assoc_L (∪)).
Qed.

(** The checker returns the words collected from the markdown cells
    under the path, or the empty dictionary when there is none. *)
Lemma check_notebook_entry (ignore : list str) (p : str) (nb : Notebook) :
  check_notebook ignore p nb = entry_for p (unknown_in (seeded ignore) (cells nb)).
Proof.
  unfold Script.check_notebook.
  change (@nil (str * gset str)) with (entry_for p ∅).
  by rewrite foldl_check_cell, (left_id_L ∅ (∪)).
Qed.

Lemma elem_of_unknown (spell : SpellChecker) (words : list str) (x : str) :
  x ∈ unknown spell words
  ↔ ∃ t, t ∈ words ∧ should_check (dictionary spell) t = true
         ∧ x = lower t ∧ ¬ known spell t.
Proof.
  unfold Script.unknown, Script.known. cbv zeta.
  rewrite elem_of_list_to_set, list_elem_of_filter, list_elem_of_fmap.
  split.
  - intros (Hx & t & -> & Ht). apply list_elem_of_filter in Ht as [? ?].
    by exists t.
  - intros (t & Ht & Hc & -> & Hk). split; [done|].
    exists t. split; [done|]. by apply list_elem_of_filter.
Qed.

Lemma elem_of_unknown_in (spell : SpellChecker) (cs : list Cell) (x : str) :
  x ∈ unknown_in spell cs
  ↔ ∃ cell, cell ∈ cs ∧ cell_type cell = lit "markdown"
            ∧ x ∈ unknown spell (tokens cell).
Proof.
  unfold Script.unknown_in. rewrite elem_of_union_list. split.
  - intros (X & HX & Hx). apply list_elem_of_fmap in HX as (cell & -> & Hc).
    apply list_elem_of_filter in Hc as [? ?]. by exists cell.
  - intros (cell & Hc & Hm & Hx). eexists. split; [|exact Hx].
    apply list_elem_of_fmap. exists cell. split; [done|].
    by apply list_elem_of_filter.
Qed.

Lemma dictionary_seeded (ignore : list str) :
  dictionary (seeded ignore)
  = en_dictionary ∪ list_to_set (lower <$> ignore).
Proof. reflexivity. Qed.

(** A word of the ignore list is known to the seeded model, and so is a
    word of the default model. *)
Lemma known_seeded (ignore : list str) (t : str) :
  known (seeded ignore) t ↔ known new_SpellChecker t ∨ lower t ∈ lower <$> ignore.
Proof.
  unfold Script.known. rewrite dictionary_seeded.
  rewrite elem_of_union, elem_of_list_to_set. done.
Qed.

Lemma unknown_in_nonempty (ignore : list str) (nb : Notebook) :
  unknown_in (seeded ignore) (cells nb) ≠ ∅ ↔ has_misspelling ignore nb.
Proof.
  unfold Script.has_misspelling. split.
  - intros Hne. apply set_choose_L in Hne as [x Hx].
    apply elem_of_unknown_in in Hx as (cell & Hc & Hm & Hx).
    apply elem_of_unknown in Hx as (t & Ht & Hs & -> & Hk).
    by exists cell, t.
  - intros (cell & t & Hc & Hm & Ht & Hs & Hk) Hempty.
    assert (lower t ∈ unknown_in (seeded ignore) (cells nb)) as Hin.
    { apply elem_of_unknown_in. exists cell. split_and!; [done..|].
      apply elem_of_unknown. by exists t. }
    rewrite Hempty in Hin. by apply not_elem_of_empty in Hin.
Qed.

Lemma has_misspelling_absent (ignore : list str) (nb : Notebook) :
  has_misspelling ignore nb → has_absent_token ignore nb.
Proof.
  intros (cell & t & Hc & Hm & Ht & Hs & Hk). exists cell, t.
  split_and!; [done..| |].
  - intros Hk'. apply Hk, known_seeded. by left.
  - intros Hi. apply Hk, known_seeded. right.
    apply list_elem_of_fmap. by exists t.
Qed.

Lemma entry_for_empty (p : str) : entry_for p ∅ = [].
Proof. unfold entry_for. by rewrite decide_True. Qed.

Lemma entry_for_nonempty (p : str) (ws : gset str) :
  ws ≠ ∅ → entry_for p ws = [(p, ws)].
Proof. intros. unfold entry_for. by rewrite decide_False. Qed.

(** The result of a check whose file is read without error. *)
Lemma spell_check_notebook_read (filepath : str) (ign : nat) (w : World)
    (nb : Notebook) :
  nb_read fs filepath = inr nb →
  (spell_check_notebook filepath ign w).1
  = Ok (entry_for filepath (unknown_in (seeded (heap w ign)) (cells nb))).
Proof.
  intros Hr. by rewrite spell_check_notebook_run, Hr, check_notebook_entry.
Qed.

(** C3. A notebook without a markdown cell yields the empty mapping,
    whatever its other cells hold. *)
Theorem no_markdown_cell_empty_report (filepath : str) (ign : nat)
    (w : World) (nb : Notebook) :
  nb_read fs filepath = inr nb →
  (∀ cell, cell ∈ cells nb → cell_type cell ≠ lit "markdown") →
  (spell_check_notebook filepath ign w).1 = Ok [].
Proof.
  intros Hr Hnone. rewrite (spell_check_notebook_read _ _ _ _ Hr).
  f_equal. rewrite <- (entry_for_empty filepath). f_equal.
  apply set_eq. intros x. rewrite elem_of_unknown_in. split.
  - intros (cell & Hc & Hm & _). by destruct (Hnone cell Hc).
  - intros Hx. by apply not_elem_of_empty in Hx.
Qed.

(** C4. When every token of every markdown cell is in the ignore list,
    the check yields the empty mapping. *)
Theorem all_tokens_ignored_empty_report (filepath : str) (ign : nat)
    (w : World) (nb : Notebook) :
  nb_read fs filepath = inr nb →
  (∀ cell t, cell ∈ cells nb → cell_type cell = lit "markdown" →
             t ∈ tokens cell → t ∈ heap w ign) →
  (spell_check_notebook filepath ign w).1 = Ok [].
Proof.
  intros Hr Hall. rewrite (spell_check_notebook_read _ _ _ _ Hr).
  f_equal. rewrite <- (entry_for_empty filepath). f_equal.
  apply set_eq. intros x. rewrite elem_of_unknown_in. split.
  - intros (cell & Hc & Hm & Hx).
    apply elem_of_unknown in Hx as (t & Ht & _ & _ & Hk).
    destruct Hk. apply known_seeded. right.
    apply list_elem_of_fmap. exists t. eauto.
  - intros Hx. by apply not_elem_of_empty in Hx.
Qed.

(** C10. The mapping that [spell_check_notebook] returns has at most one
    key, which is the path it was given, and the set under it is not
    empty. *)
Theorem spell_check_notebook_single_key (filepath : str) (ign : nat)
    (w : World) (d : dict (gset str)) :
  (spell_check_notebook filepath ign w).1 = Ok d →
  (length (Dict.keys d) ≤ 1)%nat
  ∧ ∀ k ws, (k, ws) ∈ d → k = filepath ∧ ws ≠ ∅.
Proof.
  rewrite spell_check_notebook_run. cbn [fst].
  destruct (nb_read fs filepath) as [e|nb]; [done|].
  intros [= <-]. rewrite check_notebook_entry. unfold entry_for.
  case_decide as Hw.
  - split; [cbn; lia|]. intros k ws Hin. by apply elem_of_nil in Hin.
  - split; [cbn; lia|]. intros k ws Hin.
    apply list_elem_of_singleton in Hin as [= -> ->]. done.
Qed.

(** ** Dictionaries *)

Lemma keys_set {V} (k k' : str) (v : V) (d : dict V) :
  k' ∈ Dict.keys (Dict.set k v d) ↔ k' = k ∨ k' ∈ Dict.keys d.
Proof.
  unfold Dict.keys. induction d as [|[k0 v0] d IH]; cbn [Dict.set].
  - cbn. rewrite list_elem_of_singleton. split; [by left|].
    intros [?|Hin]; [done|]. by apply elem_of_nil in Hin.
  - destruct (decide (k0 = k)) as [->|Hne]; cbn [fmap list_fmap fst].
    + rewrite !elem_of_cons. tauto.
    + change (list_fmap _ _ fst ?l) with (fst <$> l).
      rewrite !elem_of_cons, IH. tauto.
Qed.

Lemma NoDup_keys_set {V} (k : str) (v : V) (d : dict V) :
  NoDup (Dict.keys d) → NoDup (Dict.keys (Dict.set k v d)).
Proof.
  unfold Dict.keys. induction d as [|[k0 v0] d IH]; cbn [Dict.set].
  - intros _. cbn. apply NoDup_singleton.
  - cbn [fmap list_fmap fst].
    change (list_fmap _ _ fst ?l) with (fst <$> l).
    intros [Hnotin Hnd]%list.NoDup_cons.
    destruct (decide (k0 = k)) as [->|Hne]; cbn [fmap list_fmap fst];
      change (list_fmap _ _ fst ?l) with (fst <$> l).
    + apply list.NoDup_cons; by split.
    + apply list.NoDup_cons. split; [|by apply IH].
      intros Hin. apply (keys_set k k0 v d) in Hin as [?|?]; done.
Qed.

Lemma update_entry_for (all : dict (gset str)) (p : str) (ws : gset str) :
  ws ≠ ∅ → Dict.update all (entry_for p ws) = Dict.set p ws all.
Proof. intros Hne. by rewrite entry_for_nonempty. Qed.

Lemma truthy_entry_for (p : str) (ws : gset str) :
  Dict.truthy (entry_for p ws) = bool_decide (ws ≠ ∅).
Proof.
  unfold entry_for. destruct (decide (ws = ∅)) as [->|Hne].
  - by rewrite bool_decide_eq_false_2 by (intros H; by apply H).
  - by rewrite bool_decide_eq_true_2.
Qed.

(** ** The loops *)

Lemma log_opened_nil (w : World) : log_opened [] w = w.
Proof. destruct w. unfold log_opened. cbn. by rewrite app_nil_r. Qed.

Lemma log_opened_cons (p : str) (log : list str) (w : World) :
  log_opened log (log_opened [p] w) = log_opened (p :: log) w.
Proof. unfold log_opened. cbn. by rewrite <- app_assoc. Qed.

Lemma print_lines_nil (w : World) : print_lines [] w = w.
Proof. destruct w. unfold print_lines. cbn. by rewrite app_nil_r. Qed.

Lemma for_each_cons {A S} (x : A) (xs : list A) (body : S → A → M S)
    (s : S) (w : World) :
  for_each (x :: xs) body s w
  = match body s x w with
    | (Ok s', w') => for_each xs body s' w'
    | (Raise e, w') => (Raise e, w')
    end.
Proof. reflexivity. Qed.

Lemma for_each_app {A S} (xs ys : list A) (body : S → A → M S)
    (s : S) (w : World) :
  for_each (xs ++ ys) body s w
  = match for_each xs body s w with
    | (Ok s', w') => for_each ys body s' w'
    | (Raise e, w') => (Raise e, w')
    end.
Proof.
  revert s w. induction xs as [|x xs IH]; intros s w; [done|].
  cbn [app]. rewrite !for_each_cons.
  destruct (body s x w) as [[s'|e] w']; [apply IH|done].
Qed.

Lemma for_each_fmap {A B S} (f : A → B) (xs : list A) (body : S → B → M S)
    (s : S) (w : World) :
  for_each (f <$> xs) body s w = for_each xs (λ s x, body s (f x)) s w.
Proof.
  revert s w. induction xs as [|x xs IH]; intros s w; [done|].
  cbn [fmap list_fmap]. rewrite !for_each_cons.
  destruct (body s (f x) w) as [[s'|e] w']; [apply IH|done].
Qed.

(** The two nested loops are one loop over the files in walk order. *)
Lemma for_each_walk (ign : nat) (entries : list (str * list str * list str))
    (all : dict (gset str)) (w : World) :
  for_each entries (visit_dir ign) all w
  = for_each (walk_files entries)
      (λ all '(subdir, file), visit_file ign subdir all file) all w.
Proof.
  revert all w. induction entries as [|[[subdir dirs] files] entries IH];
    intros all w; [done|].
  change (walk_files (_ :: entries))
    with (((λ file, (subdir, file)) <$> files) ++ walk_files entries).
  rewrite for_each_cons, for_each_app, for_each_fmap.
  unfold Script.visit_dir at 1.
  destruct (for_each files _ all w) as [[all'|e] w']; [apply IH|done].
Qed.

Lemma run_paths_cons (ignore : list str) (p : str) (rest : list str)
    (all : dict (gset str)) :
  run_paths ignore (p :: rest) all
  = match nb_read fs p with
    | inl e => (Raise (IOFailure e), [p])
    | inr nb =>
        let r := check_notebook ignore p nb in
        let all' := if Dict.truthy r then Dict.update all r else all in
        ((run_paths ignore rest all').1, p :: (run_paths ignore rest all').2)
    end.
Proof.
  cbn [Script.run_paths]. destruct (nb_read fs p) as [e|nb]; [done|].
  cbv zeta. by destruct (run_paths _ _ _).
Qed.

(** The loop over the files is [run_paths] on their notebook paths; the
    only effect on the world is the log of the files opened. *)
Lemma for_each_files_run (ign : nat) (files : list (str * str))
    (all : dict (gset str)) (w : World) :
  for_each files (λ all '(subdir, file), visit_file ign subdir all file) all w
  = ((run_paths (heap w ign) (paths_of files) all).1,
     log_opened (run_paths (heap w ign) (paths_of files) all).2 w).
Proof.
  revert all w. induction files as [|[subdir file] files IH]; intros all w.
  - cbn. by rewrite log_opened_nil.
  - rewrite for_each_cons. unfold Script.visit_file at 1, paths_of.
    destruct (endswith file (lit ".ipynb")) eqn:Hend.
    + rewrite filter_cons_True by done. cbn [fmap list_fmap].
      change (list_fmap _ _ ?f ?l) with (f <$> l). fold (paths_of files).
      unfold mbind, M_bind. rewrite spell_check_notebook_run, run_paths_cons.
      destruct (nb_read fs (path_join subdir file)) as [e|nb]; [done|].
      cbv zeta.
      destruct (Dict.truthy _); unfold mret, M_ret; rewrite IH;
        cbn [heap log_opened fst snd]; by rewrite log_opened_cons.
    + rewrite filter_cons_False by (by rewrite Hend).
      fold (paths_of files). unfold mret, M_ret. apply IH.
Qed.

Lemma traverse_run (directory : str) (ign : nat) (w : World) :
  traverse directory ign w
  = ((run_paths (heap w ign) (notebook_paths (os_walk fs directory)) []).1,
     log_opened
       (run_paths (heap w ign) (notebook_paths (os_walk fs directory)) []).2 w).
Proof.
  unfold Script.traverse. by rewrite for_each_walk, for_each_files_run.
Qed.

Lemma aggregate_after_run (n : nat) (directory : str) (ign : nat) (w : World) :
  aggregate_after n directory ign w
  = ((run_paths (heap w ign)
        (paths_of (take n (walk_files (os_walk fs directory)))) []).1,
     log_opened
       (run_paths (heap w ign)
          (paths_of (take n (walk_files (os_walk fs directory)))) []).2 w).
Proof. unfold Script.aggregate_after. by rewrite for_each_files_run. Qed.

Lemma for_each_print (items : dict (gset str)) (w : World) :
  for_each items (λ _ item, print (report_line item)) tt w
  = (Ok tt, print_lines (report_line <$> items) w).
Proof.
  revert w. induction items as [|item items IH]; intros w.
  - cbn. by rewrite print_lines_nil.
  - rewrite for_each_cons. cbn [print]. rewrite IH.
    unfold print_lines. cbn. by rewrite <- app_assoc.
Qed.

Lemma report_run (all : dict (gset str)) (w : World) :
  report all w
  = if Dict.truthy all
    then (Raise (SystemExit 1), print_lines (report_line <$> all) w)
    else (Ok tt, w).
Proof.
  unfold report. destruct (Dict.truthy all); [|done].
  unfold mbind, M_bind. by rewrite for_each_print.
Qed.

Lemma spell_check_directory_run (directory : str) (ign : nat) (w : World) :
  spell_check_directory directory ign w
  = match traverse directory ign w with
    | (Ok all, w1) => report all w1
    | (Raise e, w1) => (Raise e, w1)
    end.
Proof. reflexivity. Qed.

(** The script calls [spell_check_directory] on the current directory
    with a new, empty list. *)
Lemma main_run (w : World) :
  main w
  = spell_check_directory (lit ".") (next_loc w)
      {| stdout := stdout w; opened := opened w;
         heap := <[next_loc w := []]> (heap w);
         next_loc := S (next_loc w) |}.
Proof. reflexivity. Qed.

(** ** The traversal without the monad *)

Lemma run_paths_keys (ignore : list str) (paths : list str)
    (all all' : dict (gset str)) (p : str) :
  (run_paths ignore paths all).1 = Ok all' →
  p ∈ Dict.keys all' →
  p ∈ Dict.keys all
  ∨ ∃ nb, nb_read fs p = inr nb ∧ has_misspelling ignore nb.
Proof.
  revert all. induction paths as [|q paths IH]; intros all.
  - cbn. intros [= ->]. by left.
  - rewrite run_paths_cons. destruct (nb_read fs q) as [e|nb] eqn:Hq; [done|].
    cbv zeta. cbn [fst]. rewrite check_notebook_entry, truthy_entry_for.
    case_bool_decide as Hne.
    + rewrite update_entry_for by done. intros Hrun Hp.
      destruct (IH _ Hrun Hp) as [Hin|?]; [|by right].
      apply keys_set in Hin as [->|?]; [|by left].
      right. exists nb. split; [done|]. by apply unknown_in_nonempty.
    + apply IH.
Qed.

Lemma run_paths_NoDup (ignore : list str) (paths : list str)
    (all all' : dict (gset str)) :
  (run_paths ignore paths all).1 = Ok all' →
  NoDup (Dict.keys all) → NoDup (Dict.keys all').
Proof.
  revert all. induction paths as [|q paths IH]; intros all.
  - cbn. by intros [= ->].
  - rewrite run_paths_cons. destruct (nb_read fs q) as [e|nb]; [done|].
    cbv zeta. cbn [fst]. rewrite check_notebook_entry, truthy_entry_for.
    case_bool_decide as Hne.
    + rewrite update_entry_for by done. intros Hrun Hnd.
      apply (IH _ Hrun). by apply NoDup_keys_set.
    + apply IH.
Qed.

(** The first file that cannot be read ends the traversal: the files
    after it are not opened. *)
Lemma run_paths_failure (ignore : list str) (before after : list str)
    (p : str) (e : io_error) (all : dict (gset str)) :
  (∀ q, q ∈ before → ∃ nb, nb_read fs q = inr nb) →
  nb_read fs p = inl e →
  run_paths ignore (before ++ p :: after) all
  = (Raise (IOFailure e), before ++ [p]).
Proof.
  intros Hbefore Hp. revert all.
  induction before as [|q before IH]; intros all.
  - cbn [app]. by rewrite run_paths_cons, Hp.
  - cbn [app]. rewrite run_paths_cons.
    destruct (Hbefore q) as [nb ->]; [by left|].
    cbv zeta. rewrite IH; [done|].
    intros q' Hq'. apply Hbefore. by right.
Qed.

Lemma report_line_form (all : dict (gset str)) :
  Forall2
    (λ '(filepath, words) line,
       ∃ order, order ≡ₚ elements words
                ∧ line = lit "Misspelled words in " ++ filepath ++ lit ": "
                         ++ join (lit ", ") order)
    all (report_line <$> all).
Proof.
  induction all as [|[filepath words] all IH]; [by constructor|].
  cbn [fmap list_fmap]. constructor; [|exact IH].
  by exists (elements words).
Qed.

(** C5. After a traversal that ends without error, with the aggregate
    [all]: nothing was printed during the traversal; when [all] is not
    empty, one line [Misspelled words in <path>: <word>, <word>, ...] is
    printed for each of its documents, which are distinct, and the script
    leaves with status 1; when [all] is empty, which is the case when no
    file name ends in [.ipynb], nothing is printed and the call returns,
    the script leaving with status 0. The status is 0 or 1. *)
Theorem report_and_exit_status (directory : str) (ign : nat) (w : World)
    (all : dict (gset str)) :
  (traverse directory ign w).1 = Ok all →
  let r := (spell_check_directory directory ign w).1 in
  let out := stdout (spell_check_directory directory ign w).2 in
  stdout (traverse directory ign w).2 = stdout w
  ∧ NoDup (Dict.keys all)
  ∧ (all ≠ [] →
     r = Raise (SystemExit 1) ∧ exit_status r = 1%Z
     ∧ ∃ lines,
         out = stdout w ++ lines
         ∧ Forall2
             (λ '(filepath, words) line,
                ∃ order, order ≡ₚ elements words
                         ∧ line = lit "Misspelled words in " ++ filepath
                                  ++ lit ": " ++ join (lit ", ") order)
             all lines)
  ∧ (all = [] → r = Ok tt ∧ exit_status r = 0%Z ∧ out = stdout w)
  ∧ (notebook_paths (os_walk fs directory) = [] → all = [])
  ∧ (exit_status r = 0%Z ∨ exit_status r = 1%Z).
Proof.
  intros Hall r out. subst r out.
  rewrite spell_check_directory_run.
  rewrite traverse_run in Hall |- *. cbn [fst snd] in Hall |- *.
  rewrite Hall, report_run.
  split_and!.
  - done.
  - eapply run_paths_NoDup; [exact Hall|]. cbn. constructor.
  - intros Hne. destruct all as [|item all]; [done|]. cbn [Dict.truthy fst snd].
    split_and!; [done..|].
    eexists. split; [reflexivity|]. apply report_line_form.
  - intros ->. by cbn.
  - intros Hnone. rewrite Hnone in Hall. cbn in Hall. by injection Hall as <-.
  - destruct all; cbn; auto.
Qed.

(** C7. An error raised when a notebook is opened or parsed is raised by
    [spell_check_notebook] and by [spell_check_directory]: at the first
    file that cannot be read the traversal ends with that error, no file
    after it is opened and nothing is printed. *)
Theorem read_error_propagates (directory : str) (ign : nat) (w : World)
    (before after : list str) (p : str) (e : io_error) :
  notebook_paths (os_walk fs directory) = before ++ p :: after →
  (∀ q, q ∈ before → ∃ nb, nb_read fs q = inr nb) →
  nb_read fs p = inl e →
  (∀ w', (spell_check_notebook p ign w').1 = Raise (IOFailure e))
  ∧ (spell_check_directory directory ign w).1 = Raise (IOFailure e)
  ∧ stdout (spell_check_directory directory ign w).2 = stdout w
  ∧ opened (spell_check_directory directory ign w).2
    = opened w ++ before ++ [p].
Proof.
  intros Hpaths Hbefore Hp. split.
  { intros w'. by rewrite spell_check_notebook_run, Hp. }
  rewrite spell_check_directory_run, traverse_run, Hpaths.
  rewrite (run_paths_failure _ _ _ _ _ _ Hbefore Hp). by cbn.
Qed.

(** C8. Neither function changes the list of ignored words: the store of
    list objects after a call is the store before it. *)
Theorem ignore_words_not_mutated (filepath directory : str) (ign : nat)
    (w : World) :
  heap (spell_check_notebook filepath ign w).2 = heap w
  ∧ heap (spell_check_directory directory ign w).2 = heap w.
Proof.
  split.
  - by rewrite spell_check_notebook_run.
  - rewrite spell_check_directory_run, traverse_run.
    destruct (run_paths _ _ _) as [[all|e] log]; cbn [fst snd]; [|done].
    rewrite report_run. by destruct (Dict.truthy all).
Qed.

Lemma traverse_aggregate_after (directory : str) (ign : nat) (w : World) :
  traverse directory ign w
  = aggregate_after (length (walk_files (os_walk fs directory)))
      directory ign w.
Proof.
  rewrite traverse_run, aggregate_after_run. unfold notebook_paths.
  by rewrite firstn_all.
Qed.

(** A directory with two notebooks, of which only the first has a
    misspelling, whatever the order in which they are met. *)
Lemma run_paths_two (ignore : list str) (paths : list str) (p1 p2 : str)
    (nb1 nb2 : Notebook) :
  paths ≡ₚ [p1; p2] →
  nb_read fs p1 = inr nb1 → nb_read fs p2 = inr nb2 →
  has_misspelling ignore nb1 → ¬ has_misspelling ignore nb2 →
  ∃ all, (run_paths ignore paths []).1 = Ok all ∧ Dict.keys all = [p1].
Proof.
  intros Hperm Hr1 Hr2 Hm1 Hm2.
  apply unknown_in_nonempty in Hm1. rewrite <- unknown_in_nonempty in Hm2.
  symmetry in Hperm.
  apply Permutation.Permutation_length_2_inv in Hperm as [-> | ->].
  - rewrite run_paths_cons, Hr1. cbv zeta.
    rewrite check_notebook_entry, truthy_entry_for.
    rewrite (bool_decide_eq_true_2 _ Hm1).
    rewrite update_entry_for by done. cbn [Dict.set].
    rewrite run_paths_cons, Hr2. cbv zeta.
    rewrite check_notebook_entry, truthy_entry_for.
    rewrite (bool_decide_eq_false_2 _ Hm2). cbn. eauto.
  - rewrite run_paths_cons, Hr2. cbv zeta.
    rewrite check_notebook_entry, truthy_entry_for.
    rewrite (bool_decide_eq_false_2 _ Hm2).
    rewrite run_paths_cons, Hr1. cbv zeta.
    rewrite check_notebook_entry, truthy_entry_for.
    rewrite (bool_decide_eq_true_2 _ Hm1).
    rewrite update_entry_for by done. cbn. eauto.
Qed.

(** C6. A path is a key of a report only if the document at this path
    has a markdown cell with a token that is absent from the spelling
    model and from the ignore list: this holds of the mapping that a
    notebook check returns and of the aggregate after any number of
    files, the final one included. When the directory holds two
    documents, one with a misspelling and one without, the final
    aggregate has the path of the former as its only key. *)
Theorem report_keys_have_misspellings (directory : str) (ign : nat)
    (w : World) :
  (∀ filepath d p,
     (spell_check_notebook filepath ign w).1 = Ok d → p ∈ Dict.keys d →
     p = filepath
     ∧ ∃ nb, nb_read fs p = inr nb ∧ has_absent_token (heap w ign) nb)
  ∧ (∀ n all p,
       (aggregate_after n directory ign w).1 = Ok all → p ∈ Dict.keys all →
       ∃ nb, nb_read fs p = inr nb ∧ has_absent_token (heap w ign) nb)
  ∧ traverse directory ign w
    = aggregate_after (length (walk_files (os_walk fs directory)))
        directory ign w
  ∧ (∀ p1 p2 nb1 nb2,
       notebook_paths (os_walk fs directory) ≡ₚ [p1; p2] →
       nb_read fs p1 = inr nb1 → nb_read fs p2 = inr nb2 →
       has_misspelling (heap w ign) nb1 →
       ¬ has_misspelling (heap w ign) nb2 →
       ∃ all, (traverse directory ign w).1 = Ok all
              ∧ Dict.keys all = [p1]).
Proof.
  split_and!.
  - intros filepath d p. rewrite spell_check_notebook_run. cbn [fst].
    destruct (nb_read fs filepath) as [e|nb] eqn:Hr; [done|].
    intros [= <-]. rewrite check_notebook_entry. unfold entry_for.
    case_decide as Hu; cbn; [by intros ?%elem_of_nil|].
    intros ->%list_elem_of_singleton. split; [done|].
    exists nb. split; [done|].
    by apply has_misspelling_absent, unknown_in_nonempty.
  - intros n all p. rewrite aggregate_after_run. cbn [fst].
    intros Hrun Hp.
    destruct (run_paths_keys _ _ _ _ _ Hrun Hp) as [Hin|(nb & Hr & Hm)].
    + by apply elem_of_nil in Hin.
    + exists nb. split; [done|]. by apply has_misspelling_absent.
  - apply traverse_aggregate_after.
  - intros p1 p2 nb1 nb2 Hperm Hr1 Hr2 Hm1 Hm2.
    rewrite traverse_run. cbn [fst].
    by apply (run_paths_two _ _ p1 p2 nb1 nb2).
Qed.

(** The words reported for the two tokens [Helllo] and [wrold]. *)
Lemma unknown_helllo_wrold (spell : SpellChecker) :
  lit "helllo" ∉ dictionary spell → lit "wrold" ∉ dictionary spell →
  should_check (dictionary spell) (lit "Helllo") = true →
  should_check (dictionary spell) (lit "wrold") = true →
  unknown spell [lit "Helllo"; lit "wrold"]
  = {[ lit "helllo"; lit "wrold" ]}.
Proof.
  intros Hh Hw Hch Hcw. unfold Script.unknown. cbv zeta.
  rewrite filter_cons_True by done. rewrite filter_cons_True by done.
  rewrite filter_nil. cbn [fmap list_fmap].
  change (lower (lit "Helllo")) with (lit "helllo").
  change (lower (lit "wrold")) with (lit "wrold").
  rewrite filter_cons_True by done. rewrite filter_cons_True by done.
  rewrite filter_nil. cbn [list_to_set foldr].
  by rewrite (right_id_L ∅ (∪)).
Qed.

Lemma seeded_nil : dictionary (seeded []) = en_dictionary.
Proof. rewrite dictionary_seeded. cbn. by rewrite (right_id_L ∅ (∪)). Qed.

(** C2, as the code has it. For a document of one markdown cell with the
    text [Helllo wrold], checked with an empty ignore list, the mapping
    returned holds under the path of the document exactly the two tokens
    in lower case, [helllo] and [wrold], when neither is in the default
    dictionary and the checker skips neither token. *)
Theorem helllo_wrold_report (filepath : str) (ign : nat) (w : World) :
  nb_read fs filepath
  = inr {| cells := [ {| cell_type := lit "markdown";
                         source := lit "Helllo wrold" |} ] |} →
  heap w ign = [] →
  lit "helllo" ∉ en_dictionary → lit "wrold" ∉ en_dictionary →
  should_check en_dictionary (lit "Helllo") = true →
  should_check en_dictionary (lit "wrold") = true →
  (spell_check_notebook filepath ign w).1
  = Ok [(filepath, {[ lit "helllo"; lit "wrold" ]})].
Proof.
  intros Hr Hign Hh Hw Hch Hcw.
  rewrite (spell_check_notebook_read _ _ _ _ Hr), Hign. cbn [cells].
  rewrite unknown_in_cons. cbn [cell_type]. rewrite decide_True by done.
  change (tokens _) with [lit "Helllo"; lit "wrold"].
  rewrite unknown_helllo_wrold by (by rewrite seeded_nil).
  change (unknown_in (seeded []) []) with (∅ : gset str).
  rewrite (right_id_L ∅ (∪)). apply f_equal, entry_for_nonempty.
  set_solver.
Qed.

(** ** The traversal, in full *)

Lemma get_set_eq {V} (k : str) (v : V) (d : dict V) :
  Dict.get k (Dict.set k v d) = Some v.
Proof.
  induction d as [|[k0 v0] d IH]; cbn [Dict.set Dict.get].
  - by rewrite decide_True.
  - destruct (decide (k0 = k)) as [->|Hne]; cbn [Dict.get].
    + by rewrite decide_True.
    + by rewrite decide_False.
Qed.

Lemma get_set_ne {V} (k k' : str) (v : V) (d : dict V) :
  k ≠ k' → Dict.get k' (Dict.set k v d) = Dict.get k' d.
Proof.
  intros Hne. induction d as [|[k0 v0] d IH]; cbn [Dict.set Dict.get].
  - by rewrite decide_False.
  - destruct (decide (k0 = k)) as [->|Hne0]; cbn [Dict.get].
    + by rewrite !decide_False.
    + by rewrite IH.
Qed.

Lemma set_fresh {V} (k : str) (v : V) (d : dict V) :
  k ∉ Dict.keys d → Dict.set k v d = d ++ [(k, v)].
Proof.
  unfold Dict.keys. induction d as [|[k0 v0] d IH]; [done|].
  cbn [fmap list_fmap fst]. change (list_fmap _ _ fst ?l) with (fst <$> l).
  intros Hnotin. apply not_elem_of_cons in Hnotin as [Hne Hnotin].
  cbn [Dict.set app]. rewrite decide_False by done. by rewrite IH.
Qed.

Lemma words_at_read (ignore : list str) (p : str) (nb : Notebook) :
  nb_read fs p = inr nb →
  words_at ignore p = unknown_in (seeded ignore) (cells nb).
Proof. intros Hr. unfold Script.words_at. by rewrite Hr. Qed.

(** One step of the traversal at a document that can be read. *)
Lemma run_paths_step (ignore : list str) (p : str) (rest : list str)
    (all : dict (gset str)) (nb : Notebook) :
  nb_read fs p = inr nb →
  run_paths ignore (p :: rest) all
  = ((run_paths ignore rest
        (if decide (words_at ignore p = ∅) then all
         else Dict.set p (words_at ignore p) all)).1,
     p :: (run_paths ignore rest
             (if decide (words_at ignore p = ∅) then all
              else Dict.set p (words_at ignore p) all)).2).
Proof.
  intros Hr. rewrite run_paths_cons, Hr. cbv zeta.
  rewrite check_notebook_entry, truthy_entry_for, (words_at_read _ _ _ Hr).
  destruct (decide (unknown_in (seeded ignore) (cells nb) = ∅)) as [He|Hne].
  - by rewrite bool_decide_eq_false_2 by (intros H; by apply H).
  - rewrite bool_decide_eq_true_2 by done. by rewrite update_entry_for.
Qed.

Lemma run_paths_ok_iff (ignore : list str) (paths : list str)
    (all : dict (gset str)) :
  (∃ all', (run_paths ignore paths all).1 = Ok all')
  ↔ ∀ p, p ∈ paths → ∃ nb, nb_read fs p = inr nb.
Proof.
  revert all. induction paths as [|q paths IH]; intros all.
  - split; [by intros _ p ?%elem_of_nil|]. intros _. by exists all.
  - destruct (nb_read fs q) as [e|nb] eqn:Hq.
    + rewrite run_paths_cons, Hq. split; [by intros [? ?]|].
      intros Hall. destruct (Hall q) as [nb Hnb]; [by left|]. congruence.
    + rewrite (run_paths_step _ _ _ _ _ Hq). cbn [fst]. rewrite IH.
      split.
      * intros Hall p [->|Hp]%elem_of_cons; [by exists nb|by apply Hall].
      * intros Hall p Hp. apply Hall. by right.
Qed.

(** The set under a path of the aggregate is the one collected from the
    document at this path. *)
Lemma run_paths_get (ignore : list str) (paths : list str)
    (all all' : dict (gset str)) (p : str) :
  (run_paths ignore paths all).1 = Ok all' →
  Dict.get p all'
  = if decide (p ∈ paths ∧ words_at ignore p ≠ ∅)
    then Some (words_at ignore p) else Dict.get p all.
Proof.
  revert all. induction paths as [|q paths IH]; intros all.
  - cbn. intros [= ->]. rewrite decide_False; [done|].
    by intros [?%elem_of_nil _].
  - destruct (nb_read fs q) as [e|nb] eqn:Hq.
    { by rewrite run_paths_cons, Hq. }
    rewrite (run_paths_step _ _ _ _ _ Hq). cbn [fst].
    intros Hrun. rewrite (IH _ Hrun).
    destruct (decide (p ∈ paths ∧ words_at ignore p ≠ ∅)) as [[Hp Hw]|Hnot].
    + rewrite decide_True; [done|]. split; [by right|done].
    + destruct (decide (words_at ignore q = ∅)) as [He|Hne].
      * destruct (decide (p ∈ q :: paths ∧ words_at ignore p ≠ ∅))
          as [[[->|Hp]%elem_of_cons Hw]|Hnot']; [done| |done].
        destruct Hnot. by split.
      * destruct (decide (q = p)) as [->|Hqp].
        -- rewrite get_set_eq. rewrite decide_True; [done|].
           split; [by left|done].
        -- rewrite get_set_ne by done. rewrite decide_False; [done|].
           intros [[->|Hp]%elem_of_cons Hw]; [done|]. apply Hnot. by split.
Qed.

Lemma run_paths_empty_iff (ignore : list str) (paths : list str)
    (all all' : dict (gset str)) :
  (run_paths ignore paths all).1 = Ok all' →
  all' = [] ↔ all = [] ∧ ∀ p, p ∈ paths → words_at ignore p = ∅.
Proof.
  revert all. induction paths as [|q paths IH]; intros all.
  - cbn. intros [= ->]. split; [|by intros [? _]].
    intros ->. split; [done|]. by intros p ?%elem_of_nil.
  - destruct (nb_read fs q) as [e|nb] eqn:Hq.
    { by rewrite run_paths_cons, Hq. }
    rewrite (run_paths_step _ _ _ _ _ Hq). cbn [fst].
    intros Hrun. rewrite (IH _ Hrun).
    destruct (decide (words_at ignore q = ∅)) as [He|Hne].
    + split.
      * intros [-> Hall]. split; [done|].
        intros p [->|Hp]%elem_of_cons; [done|by apply Hall].
      * intros [-> Hall]. split; [done|]. intros p Hp. apply Hall. by right.
    + split.
      * intros [Hset _]. by destruct all as [|[k v] all];
          cbn [Dict.set] in Hset; [|destruct (decide (k = q))].
      * intros [_ Hall]. destruct Hne. apply Hall. by left.
Qed.

Lemma run_paths_log (ignore : list str) (paths : list str)
    (all : dict (gset str)) :
  (run_paths ignore paths all).2 `prefix_of` paths
  ∧ ((run_paths ignore paths all).2 = paths
     ∨ ∃ e, (run_paths ignore paths all).1 = Raise (IOFailure e)).
Proof.
  revert all. induction paths as [|q paths IH]; intros all.
  - cbn. split; [done|by left].
  - destruct (nb_read fs q) as [e|nb] eqn:Hq.
    + rewrite run_paths_cons, Hq. cbn [fst snd]. split; [|by eauto].
      by exists paths.
    + rewrite (run_paths_step _ _ _ _ _ Hq). cbn [fst snd].
      destruct (IH (if decide (words_at ignore q = ∅) then all
                    else Dict.set q (words_at ignore q) all))
        as [Hpre Hcase].
      split; [by apply prefix_cons|].
      destruct Hcase as [->|?]; [by left|by right].
Qed.

Lemma run_paths_failure_inv (ignore : list str) (paths : list str)
    (all : dict (gset str)) (ex : exception) :
  (run_paths ignore paths all).1 = Raise ex →
  ∃ e before p after,
    ex = IOFailure e ∧ paths = before ++ p :: after
    ∧ (∀ q, q ∈ before → ∃ nb, nb_read fs q = inr nb)
    ∧ nb_read fs p = inl e.
Proof.
  revert all. induction paths as [|q paths IH]; intros all; [done|].
  destruct (nb_read fs q) as [e|nb] eqn:Hq.
  - rewrite run_paths_cons, Hq. cbn [fst]. intros [= <-].
    exists e, [], q, paths. split_and!; [done..| |done].
    by intros ? ?%elem_of_nil.
  - rewrite (run_paths_step _ _ _ _ _ Hq). cbn [fst]. intros Hrun.
    destruct (IH _ Hrun) as (e & before & p & after & -> & -> & Hb & Hp).
    exists e, (q :: before), p, after. split_and!; [done..| |done].
    intros q' [->|Hq']%elem_of_cons; [by exists nb|by apply Hb].
Qed.

(** When no path is met twice, the aggregate lists the documents with
    words in the order in which they are met. *)
Lemma run_paths_exact (ignore : list str) (paths : list str)
    (all : dict (gset str)) :
  NoDup paths →
  (∀ p, p ∈ paths → p ∉ Dict.keys all) →
  (∀ p, p ∈ paths → ∃ nb, nb_read fs p = inr nb) →
  run_paths ignore paths all
  = (Ok (all ++ expected_report ignore paths), paths).
Proof.
  revert all. induction paths as [|q paths IH]; intros all Hnd Hfresh Hread.
  - cbn. by rewrite app_nil_r.
  - apply list.NoDup_cons in Hnd as [Hq Hnd].
    destruct (Hread q) as [nb Hnb]; [by left|].
    rewrite (run_paths_step _ _ _ _ _ Hnb). unfold Script.expected_report.
    destruct (decide (words_at ignore q = ∅)) as [He|Hne].
    + rewrite filter_cons_False by (intros H; by apply H).
      rewrite IH; [done..| |].
      * intros p Hp. apply Hfresh. by right.
      * intros p Hp. apply Hread. by right.
    + rewrite filter_cons_True by done. cbn [fmap list_fmap].
      change (list_fmap _ _ ?f ?l) with (f <$> l).
      rewrite IH; [| done | |].
      * rewrite set_fresh by (apply Hfresh; by left).
        cbn [fst snd]. by rewrite <- app_assoc.
      * intros p Hp Hin. apply keys_set in Hin as [->|Hin]; [done|].
        revert Hin. apply Hfresh. by right.
      * intros p Hp. apply Hread. by right.
Qed.

Lemma words_at_misspelling (ignore : list str) (p : str) :
  words_at ignore p ≠ ∅
  ↔ ∃ nb, nb_read fs p = inr nb ∧ has_misspelling ignore nb.
Proof.
  unfold Script.words_at. destruct (nb_read fs p) as [e|nb].
  - split; [by intros H|]. by intros (nb & [=] & _).
  - rewrite unknown_in_nonempty. split; [by exists nb|].
    by intros (nb' & [= <-] & ?).
Qed.

(** The three ways in which the traversal and the report can end. *)
Lemma spell_check_directory_result (directory : str) (ign : nat) (w : World) :
  let paths := notebook_paths (os_walk fs directory) in
  let r := (spell_check_directory directory ign w).1 in
  ((∀ p, p ∈ paths → ∃ nb, nb_read fs p = inr nb)
   ∧ ((∀ p, p ∈ paths → words_at (heap w ign) p = ∅) ∧ r = Ok tt
      ∨ (∃ p, p ∈ paths ∧ words_at (heap w ign) p ≠ ∅)
        ∧ r = Raise (SystemExit 1)))
  ∨ (∃ e before p after,
       paths = before ++ p :: after
       ∧ (∀ q, q ∈ before → ∃ nb, nb_read fs q = inr nb)
       ∧ nb_read fs p = inl e ∧ r = Raise (IOFailure e)).
Proof.
  intros paths r. subst r.
  rewrite spell_check_directory_run, traverse_run. fold paths.
  destruct (run_paths (heap w ign) paths []).1 as [all|ex] eqn:Hrun;
    cbn [fst snd].
  - left. split.
    { apply (run_paths_ok_iff (heap w ign) paths []). by exists all. }
    rewrite report_run.
    pose proof (run_paths_empty_iff _ _ _ _ Hrun) as Hempty.
    destruct all as [|item all]; cbn [Dict.truthy fst].
    + left. split; [|done]. by apply Hempty.
    + right. split; [|done].
      destruct (decide (Exists (λ p, words_at (heap w ign) p ≠ ∅) paths))
        as [Hex|Hnex].
      * apply list.Exists_exists in Hex as (p & ? & ?). by exists p.
      * assert (item :: all = []) as Habs; [|done].
        apply Hempty. split; [done|]. intros p Hp.
        destruct (decide (words_at (heap w ign) p = ∅)) as [|Hne]; [done|].
        destruct Hnex. apply list.Exists_exists. by exists p.
  - right.
    destruct (run_paths_failure_inv _ _ _ _ Hrun)
      as (e & before & p & after & -> & Hp & Hb & He).
    by exists e, before, p, after.
Qed.

Lemma spell_check_directory_heap (directory : str) (ign : nat) (w : World) :
  heap (spell_check_directory directory ign w).2 = heap w.
Proof.
  rewrite spell_check_directory_run, traverse_run.
  destruct (run_paths _ _ _) as [[all|e] log]; cbn [fst snd]; [|done].
  rewrite report_run. by destruct (Dict.truthy all).
Qed.

(** X4. For a document that is read, a word is in the set returned under
    the path exactly when it is the lower-case form of a token of one of
    the markdown cells that the checker does not skip and that the seeded
    model does not know: the words of all the markdown cells are gathered
    in the one set. *)
Theorem spell_check_notebook_words (filepath : str) (ign : nat) (w : World)
    (nb : Notebook) (x : str) :
  nb_read fs filepath = inr nb →
  (∃ d ws, (spell_check_notebook filepath ign w).1 = Ok d
           ∧ Dict.get filepath d = Some ws ∧ x ∈ ws)
  ↔ ∃ cell t, cell ∈ cells nb ∧ cell_type cell = lit "markdown"
              ∧ t ∈ tokens cell
              ∧ should_check (dictionary (seeded (heap w ign))) t = true
              ∧ ¬ known (seeded (heap w ign)) t ∧ x = lower t.
Proof.
  intros Hr. rewrite (spell_check_notebook_read _ _ _ _ Hr).
  assert (x ∈ unknown_in (seeded (heap w ign)) (cells nb)
          ↔ ∃ cell t, cell ∈ cells nb ∧ cell_type cell = lit "markdown"
              ∧ t ∈ tokens cell
              ∧ should_check (dictionary (seeded (heap w ign))) t = true
              ∧ ¬ known (seeded (heap w ign)) t ∧ x = lower t) as <-.
  { rewrite elem_of_unknown_in. split.
    - intros (cell & Hc & Hm & (t & ? & ? & ? & ?)%elem_of_unknown).
      by exists cell, t.
    - intros (cell & t & Hc & Hm & Ht & Hs & Hk & Hx). exists cell.
      split_and!; [done..|]. apply elem_of_unknown. by exists t. }
  unfold entry_for.
  destruct (decide (unknown_in (seeded (heap w ign)) (cells nb) = ∅))
    as [He|Hne].
  - rewrite He. split; [by intros (d & ws & [= <-] & ? & _)|].
    by intros ?%not_elem_of_empty.
  - split.
    + intros (d & ws & [= <-] & Hget & Hx). cbn [Dict.get] in Hget.
      rewrite decide_True in Hget by done. by injection Hget as <-.
    + intros Hx. eexists _, _. split; [done|]. cbn [Dict.get].
      by rewrite decide_True.
Qed.

(** X5. The result of a check depends on the markdown cells only, and
    not on their order: two documents whose markdown cells are the same
    up to order yield the same set of words. *)
Theorem only_markdown_cells_matter (p1 p2 : str) (ign : nat) (w : World)
    (nb1 nb2 : Notebook) :
  nb_read fs p1 = inr nb1 → nb_read fs p2 = inr nb2 →
  filter (λ cell, cell_type cell = lit "markdown") (cells nb1)
  ≡ₚ filter (λ cell, cell_type cell = lit "markdown") (cells nb2) →
  ∃ d1 d2, (spell_check_notebook p1 ign w).1 = Ok d1
           ∧ (spell_check_notebook p2 ign w).1 = Ok d2
           ∧ d1.*2 = d2.*2.
Proof.
  intros Hr1 Hr2 Hperm.
  rewrite (spell_check_notebook_read _ _ _ _ Hr1).
  rewrite (spell_check_notebook_read _ _ _ _ Hr2).
  eexists _, _. split_and!; [done..|].
  assert (unknown_in (seeded (heap w ign)) (cells nb1)
          = unknown_in (seeded (heap w ign)) (cells nb2)) as ->.
  { apply set_eq. intros x. rewrite !elem_of_unknown_in.
    split; intros (cell & Hc & Hm & Hx); exists cell;
      (split_and!; [|done..]);
      assert (cell ∈ filter (λ cell, cell_type cell = lit "markdown")
                (cells nb1)
              ↔ cell ∈ filter (λ cell, cell_type cell = lit "markdown")
                  (cells nb2)) as Hiff by (by rewrite Hperm);
      rewrite !list_elem_of_filter in Hiff; tauto. }
  unfold entry_for. by case_decide.
Qed.

(** X6. The ignore list is matched without regard to case: when every
    token of every markdown cell has the lower-case form of a word of the
    ignore list, the check yields the empty mapping. *)
Theorem ignore_list_ignores_case (filepath : str) (ign : nat) (w : World)
    (nb : Notebook) :
  nb_read fs filepath = inr nb →
  (∀ cell t, cell ∈ cells nb → cell_type cell = lit "markdown" →
             t ∈ tokens cell →
             ∃ i, i ∈ heap w ign ∧ lower t = lower i) →
  (spell_check_notebook filepath ign w).1 = Ok [].
Proof.
  intros Hr Hall. rewrite (spell_check_notebook_read _ _ _ _ Hr).
  f_equal. rewrite <- (entry_for_empty filepath). f_equal.
  apply set_eq. intros x. rewrite elem_of_unknown_in. split.
  - intros (cell & Hc & Hm & Hx).
    apply elem_of_unknown in Hx as (t & Ht & _ & _ & Hk).
    destruct Hk. apply known_seeded. right.
    destruct (Hall cell t Hc Hm Ht) as (i & Hi & ->).
    apply list_elem_of_fmap. by exists i.
  - intros Hx. by apply not_elem_of_empty in Hx.
Qed.

(** X7. The files that [spell_check_directory] opens are notebooks of the
    tree, each opened once, in the order of the walk: all of them, unless
    a read fails, and then those up to the one that fails. *)
Theorem only_notebooks_opened (directory : str) (ign : nat) (w : World) :
  ∃ log,
    opened (spell_check_directory directory ign w).2 = opened w ++ log
    ∧ log `prefix_of` notebook_paths (os_walk fs directory)
    ∧ (log = notebook_paths (os_walk fs directory)
       ∨ ∃ e, (spell_check_directory directory ign w).1
              = Raise (IOFailure e)).
Proof.
  rewrite spell_check_directory_run, traverse_run.
  destruct (run_paths_log (heap w ign)
              (notebook_paths (os_walk fs directory)) []) as [Hpre Hcase].
  destruct (run_paths _ _ _) as [[all|ex] log]; cbn [fst snd] in *.
  - exists log. rewrite report_run.
    destruct Hcase as [->|[e [=]]].
    destruct (Dict.truthy all); cbn; split_and!; (done || by left).
  - exists log. cbn. split_and!; [done..|].
    destruct Hcase as [->|[e [= ->]]]; [by left|right; by exists e].
Qed.


(** X9. How a call of [spell_check_directory] ends: it returns exactly
    when every notebook of the tree is read and none has a misspelling;
    it raises [SystemExit(1)] exactly when every notebook is read and one
    has a misspelling; it raises the error of a read exactly when this
    read is the first that fails. *)
Theorem spell_check_directory_outcome (directory : str) (ign : nat)
    (w : World) :
  let paths := notebook_paths (os_walk fs directory) in
  let r := (spell_check_directory directory ign w).1 in
  (r = Ok tt
   ↔ ∀ p, p ∈ paths →
          ∃ nb, nb_read fs p = inr nb ∧ ¬ has_misspelling (heap w ign) nb)
  ∧ (r = Raise (SystemExit 1)
     ↔ (∀ p, p ∈ paths → ∃ nb, nb_read fs p = inr nb)
       ∧ ∃ p nb, p ∈ paths ∧ nb_read fs p = inr nb
                 ∧ has_misspelling (heap w ign) nb)
  ∧ (∀ e, r = Raise (IOFailure e)
          ↔ ∃ before p after,
              paths = before ++ p :: after
              ∧ (∀ q, q ∈ before → ∃ nb, nb_read fs q = inr nb)
              ∧ nb_read fs p = inl e).
Proof.
  intros paths r.
  assert (∀ e before p after,
            paths = before ++ p :: after →
            (∀ q, q ∈ before → ∃ nb, nb_read fs q = inr nb) →
            nb_read fs p = inl e → r = Raise (IOFailure e)) as Hfail.
  { intros e before p after Hp Hb He. subst r.
    rewrite spell_check_directory_run, traverse_run. fold paths.
    by rewrite Hp, (run_paths_failure _ _ _ _ _ _ Hb He). }
  assert (∀ e before p after,
            paths = before ++ p :: after → nb_read fs p = inl e →
            ¬ ∀ q, q ∈ paths → ∃ nb, nb_read fs q = inr nb) as Hunread.
  { intros e before p after -> He Hall.
    destruct (Hall p) as [nb Hnb]; [|congruence].
    apply elem_of_app. right. by left. }
  pose proof (spell_check_directory_result directory ign w) as Hres.
  cbv zeta in Hres. fold paths r in Hres.
  destruct Hres as [[Hread [[Hnone Hr]|[(p & Hp & Hw) Hr]]]
                   |(e & before & p & after & Hp & Hb & He & Hr)].
  - split_and!.
    + split; [|done]. intros _ p Hp. destruct (Hread p Hp) as [nb Hnb].
      exists nb. split; [done|]. intros Hm.
      destruct (proj2 (words_at_misspelling (heap w ign) p)); [by exists nb|].
      by apply Hnone.
    + rewrite Hr. split; [done|]. intros (_ & p & nb & Hp & Hnb & Hm).
      destruct (proj2 (words_at_misspelling (heap w ign) p)); [by exists nb|].
      by apply Hnone.
    + intros e. rewrite Hr. split; [done|].
      intros (before & p & after & Hp & _ & He).
      by destruct (Hunread _ _ _ _ Hp He).
  - apply words_at_misspelling in Hw as (nb & Hnb & Hm). split_and!.
    + rewrite Hr. split; [done|]. intros Hall.
      destruct (Hall p Hp) as (nb' & Hnb' & Hm'). congruence.
    + split; [|done]. intros _. split; [done|]. by exists p, nb.
    + intros e. rewrite Hr. split; [done|].
      intros (before & q & after & Hq & _ & He).
      by destruct (Hunread _ _ _ _ Hq He).
  - split_and!.
    + rewrite Hr. split; [done|]. intros Hall.
      destruct (Hunread _ _ _ _ Hp He). intros q Hq.
      destruct (Hall q Hq) as (nb & ? & _). by exists nb.
    + rewrite Hr. split; [done|]. intros [Hall _].
      by destruct (Hunread _ _ _ _ Hp He).
    + intros e'. split.
      * rewrite Hr. intros [= <-]. by exists before, p, after.
      * intros (before' & p' & after' & Hp' & Hb' & He').
        by apply (Hfail e' before' p' after').
Qed.

(** X10. The script leaves with status 0 exactly when every notebook
    under the current directory is read and none has a misspelling with
    respect to the default model alone; otherwise it leaves with status
    1. The list objects that existed before the run are unchanged. *)
Theorem main_exit_status (w : World) :
  let paths := notebook_paths (os_walk fs (lit ".")) in
  (exit_status (main w).1 = 0%Z
   ↔ ∀ p, p ∈ paths →
          ∃ nb, nb_read fs p = inr nb ∧ ¬ has_misspelling [] nb)
  ∧ (exit_status (main w).1 = 0%Z ∨ exit_status (main w).1 = 1%Z)
  ∧ ∀ l, l ≠ next_loc w → heap (main w).2 l = heap w l.
Proof.
  intros paths. rewrite main_run.
  set (w1 := {| stdout := stdout w; opened := opened w;
                heap := <[next_loc w := []]> (heap w);
                next_loc := S (next_loc w) |}).
  assert (heap w1 (next_loc w) = []) as Hign by apply fn_lookup_insert.
  split_and!.
  - pose proof (spell_check_directory_result (lit ".") (next_loc w) w1)
      as Hres.
    cbv zeta in Hres. rewrite Hign in Hres. fold paths in Hres.
    destruct Hres as [[Hread [[Hnone Hr]|[(p & Hp & Hw) Hr]]]
                     |(e & before & p & after & Hp & Hb & He & Hr)];
      rewrite Hr; cbn [exit_status].
    + split; [|done]. intros _ p Hp. destruct (Hread p Hp) as [nb Hnb].
      exists nb. split; [done|]. intros Hm.
      destruct (proj2 (words_at_misspelling [] p)); [by exists nb|].
      by apply Hnone.
    + split; [done|]. intros Hall.
      apply words_at_misspelling in Hw as (nb & Hnb & Hm).
      destruct (Hall p Hp) as (nb' & Hnb' & Hm'). congruence.
    + split; [done|]. intros Hall.
      destruct (Hall p) as (nb & Hnb & _); [|congruence].
      rewrite Hp. apply elem_of_app. right. by left.
  - destruct (spell_check_directory_result (lit ".") (next_loc w) w1)
      as [[_ [[_ ->]|[_ ->]]]|(e & ? & ? & ? & _ & _ & _ & ->)];
      cbn [exit_status]; auto.
  - intros l Hl. rewrite spell_check_directory_heap.
    cbn [heap w1]. by rewrite fn_lookup_insert_ne.
Qed.

(** X11. In the aggregate of a traversal, the set under the path of a
    document is the set that the check of this document collects; a path
    that is not met, or whose document has no word, is not a key. *)
Theorem aggregate_holds_the_words (directory : str) (ign : nat) (w : World)
    (all : dict (gset str)) (p : str) :
  (traverse directory ign w).1 = Ok all →
  Dict.get p all
  = if decide (p ∈ notebook_paths (os_walk fs directory)
               ∧ words_at (heap w ign) p ≠ ∅)
    then Some (words_at (heap w ign) p) else None.
Proof.
  rewrite traverse_run. cbn [fst]. intros Hrun.
  by rewrite (run_paths_get _ _ _ _ p Hrun).
Qed.

End Properties.

(** ** The script on the sample tree *)

Lemma sample_unknown_bad :
  unknown_in id Sample.checks_all (seeded Sample.en id []) (cells Sample.bad)
  = {[ lit "helllo"; lit "wrold" ]}.
Proof. vm_compute. reflexivity. Qed.

Lemma sample_unknown_good :
  unknown_in id Sample.checks_all (seeded Sample.en id []) (cells Sample.good)
  = ∅.
Proof. vm_compute. reflexivity. Qed.

Lemma sample_paths :
  notebook_paths (os_walk Sample.fs (lit "."))
  = [Sample.good_path; Sample.bad_path].
Proof. vm_compute. reflexivity. Qed.

Lemma sample_traverse :
  (traverse Sample.en id Sample.checks_all Sample.fs (lit ".") 0 Sample.w0).1
  = Ok [(Sample.bad_path, {[ lit "helllo"; lit "wrold" ]})].
Proof. vm_compute. reflexivity. Qed.

(** The run on [.]: both notebooks are opened, one line is printed (its
    two words in the order of [elements]) and the script leaves with
    status 1. *)
Example sample_run :
  let r := main Sample.en id Sample.checks_all Sample.fs Sample.w0 in
  r.1 = Raise (SystemExit 1)
  ∧ exit_status r.1 = 1%Z
  ∧ stdout r.2 = [lit "Misspelled words in ./sub/bad.ipynb: helllo, wrold"]
  ∧ opened r.2 = [Sample.good_path; Sample.bad_path].
Proof. vm_compute. by split_and!. Qed.

(** The run on a directory without notebook: nothing is opened or
    printed, the call returns. *)
Example sample_run_docs :
  spell_check_directory Sample.en id Sample.checks_all Sample.fs
    (lit "docs") 0 Sample.w0
  = (Ok tt, Sample.w0).
Proof. vm_compute. reflexivity. Qed.

Lemma helllo_not_capitalised :
  ({[ lit "helllo"; lit "wrold" ]} : gset str) ≠ {[ lit "Helllo"; lit "wrold" ]}.
Proof.
  intros Heq.
  assert (lit "Helllo" ∈ ({[ lit "helllo"; lit "wrold" ]} : gset str)) as Hin
    by (rewrite Heq; set_solver).
  apply elem_of_union in Hin as [Hin|Hin];
    apply elem_of_singleton in Hin; discriminate Hin.
Qed.

(** C2, as the claim has it, fails on the sample tree: neither token is
    in the dictionary, and the set reported for the document holds
    [helllo], not [Helllo]. *)
Lemma helllo_wrold_counterexample :
  nb_read Sample.fs Sample.bad_path
  = inr {| cells := [ {| cell_type := lit "markdown";
                         source := lit "Helllo wrold" |} ] |}
  ∧ heap Sample.w0 0 = []
  ∧ (lit "Helllo" ∉ Sample.en) ∧ (lit "wrold" ∉ Sample.en)
  ∧ ∃ d, (spell_check_notebook Sample.en id Sample.checks_all Sample.fs
            Sample.bad_path 0 Sample.w0).1 = Ok d
         ∧ Dict.get Sample.bad_path d
           = Some {[ lit "helllo"; lit "wrold" ]}
         ∧ Dict.get Sample.bad_path d
           ≠ Some {[ lit "Helllo"; lit "wrold" ]}.
Proof.
  split_and!.
  - reflexivity.
  - reflexivity.
  - apply (bool_decide_unpack _). vm_compute. exact I.
  - apply (bool_decide_unpack _). vm_compute. exact I.
  - exists [(Sample.bad_path, {[ lit "helllo"; lit "wrold" ]})].
    split_and!.
    + vm_compute. reflexivity.
    + cbn [Dict.get]. by destruct (decide (Sample.bad_path = Sample.bad_path)).
    + cbn [Dict.get].
      destruct (decide (Sample.bad_path = Sample.bad_path)); [|done].
      intros Heq. apply helllo_not_capitalised. congruence.
Qed.

Lemma helllo_wrold_report_witness :
  (spell_check_notebook Sample.en id Sample.checks_all Sample.fs
     Sample.bad_path 0 Sample.w0).1
  = Ok [(Sample.bad_path, {[ lit "helllo"; lit "wrold" ]})].
Proof.
  apply (helllo_wrold_report Sample.en id Sample.checks_all Sample.fs
           Sample.bad_path 0 Sample.w0).
  - reflexivity.
  - reflexivity.
  - apply (bool_decide_unpack _). vm_compute. exact I.
  - apply (bool_decide_unpack _). vm_compute. exact I.
  - reflexivity.
  - reflexivity.
Defined.

Lemma no_markdown_cell_empty_report_witness :
  (spell_check_notebook Sample.en id Sample.checks_all Sample.fs
     Sample.code_path 0 Sample.w0).1 = Ok [].
Proof.
  apply (no_markdown_cell_empty_report Sample.en id Sample.checks_all
           Sample.fs Sample.code_path 0 Sample.w0 Sample.code_only).
  - reflexivity.
  - intros cell Hin. apply list_elem_of_singleton in Hin. subst cell.
    vm_compute. discriminate.
Defined.

Lemma all_tokens_ignored_empty_report_witness :
  (spell_check_notebook Sample.en id Sample.checks_all Sample.fs
     Sample.bad_path 1 Sample.w0).1 = Ok [].
Proof.
  apply (all_tokens_ignored_empty_report Sample.en id Sample.checks_all
           Sample.fs Sample.bad_path 1 Sample.w0 Sample.bad).
  - reflexivity.
  - intros cell t Hin _ Ht. apply list_elem_of_singleton in Hin. subst cell.
    vm_compute in Ht |- *. exact Ht.
Defined.

Lemma spell_check_notebook_single_key_witness :
  (length (Dict.keys [(Sample.bad_path,
                       ({[ lit "helllo"; lit "wrold" ]} : gset str))]) ≤ 1)%nat
  ∧ ∀ k ws, (k, ws) ∈ [(Sample.bad_path,
                        ({[ lit "helllo"; lit "wrold" ]} : gset str))] →
            k = Sample.bad_path ∧ ws ≠ ∅.
Proof.
  apply (spell_check_notebook_single_key Sample.en id Sample.checks_all
           Sample.fs Sample.bad_path 0 Sample.w0).
  vm_compute. reflexivity.
Defined.

Lemma report_and_exit_status_witness :
  (spell_check_directory Sample.en id Sample.checks_all Sample.fs
     (lit ".") 0 Sample.w0).1 = Raise (SystemExit 1)
  ∧ exit_status
      (spell_check_directory Sample.en id Sample.checks_all Sample.fs
         (lit ".") 0 Sample.w0).1 = 1%Z.
Proof.
  destruct (report_and_exit_status Sample.en id Sample.checks_all Sample.fs
              (lit ".") 0 Sample.w0
              [(Sample.bad_path, {[ lit "helllo"; lit "wrold" ]})])
    as (_ & _ & Hbad & _).
  - vm_compute. reflexivity.
  - destruct Hbad as (Hr & He & _); [discriminate|]. by split.
Defined.

Lemma report_keys_have_misspellings_witness :
  ∃ all, (traverse Sample.en id Sample.checks_all Sample.fs
            (lit ".") 0 Sample.w0).1 = Ok all
         ∧ Dict.keys all = [Sample.bad_path].
Proof.
  destruct (report_keys_have_misspellings Sample.en id Sample.checks_all
              Sample.fs (lit ".") 0 Sample.w0) as (_ & _ & _ & Htwo).
  apply (Htwo Sample.bad_path Sample.good_path Sample.bad Sample.good).
  - rewrite sample_paths. apply Permutation_swap.
  - reflexivity.
  - reflexivity.
  - apply unknown_in_nonempty. change (heap Sample.w0 0) with (@nil str).
    rewrite sample_unknown_bad.
    apply (non_empty_inhabited_L (lit "helllo")). set_solver.
  - rewrite <- unknown_in_nonempty. change (heap Sample.w0 0) with (@nil str).
    rewrite sample_unknown_good.
    intros Hne. by apply Hne.
Defined.

Lemma read_error_propagates_witness :
  (spell_check_directory Sample.en id Sample.checks_all Sample.fs
     (lit "broken") 0 Sample.w0).1 = Raise (IOFailure NotJSONError)
  ∧ opened
      (spell_check_directory Sample.en id Sample.checks_all Sample.fs
         (lit "broken") 0 Sample.w0).2
    = [Sample.good_path; Sample.broken_path].
Proof.
  destruct (read_error_propagates Sample.en id Sample.checks_all Sample.fs
              (lit "broken") 0 Sample.w0
              [Sample.good_path] [Sample.bad_path] Sample.broken_path
              NotJSONError)
    as (_ & Hr & _ & Ho).
  - vm_compute. reflexivity.
  - intros q Hq. apply list_elem_of_singleton in Hq. subst q.
    exists Sample.good. reflexivity.
  - reflexivity.
  - split; [exact Hr | exact Ho].
Defined.

(** * Further properties of the script *)

(** ** Tokens *)

Lemma punctuation_not_space (c : N) : c ∈ punctuation → isspace c = false.
Proof.
  revert c. apply list.Forall_forall.
  apply (bool_decide_unpack _). vm_compute. exact I.
Qed.

Lemma space_not_punctuation (c : N) : isspace c = true → c ∉ punctuation.
Proof.
  intros Hs Hp. apply punctuation_not_space in Hp. congruence.
Qed.

Lemma filter_rev_str (P : N → Prop) `{!∀ c, Decision (P c)} (l : str) :
  filter P (rev l) = rev (filter P l).
Proof.
  induction l as [|c l IH]; [done|].
  cbn [rev]. rewrite list.filter_app, IH.
  destruct (decide (P c)) as [Hc|Hc].
  - rewrite (filter_cons_True P c l Hc), (filter_cons_True P c [] Hc).
    by rewrite filter_nil.
  - rewrite (filter_cons_False P c l Hc), (filter_cons_False P c [] Hc).
    by rewrite filter_nil, app_nil_r.
Qed.

Lemma remove_punctuation_rev (s : str) :
  remove_punctuation (rev s) = rev (remove_punctuation s).
Proof. rewrite !remove_punctuation_filter. apply filter_rev_str. Qed.

Lemma remove_punctuation_cons (c : N) (s : str) :
  remove_punctuation (c :: s)
  = if decide (c ∈ punctuation) then remove_punctuation s
    else c :: remove_punctuation s.
Proof.
  rewrite !remove_punctuation_filter.
  destruct (decide (c ∈ punctuation)) as [Hc|Hc].
  - by rewrite filter_cons_False by tauto.
  - by rewrite filter_cons_True.
Qed.

(** What [split_from] yields: runs without white space that are not
    empty, made of characters of the run being read or of the text. *)
Lemma split_from_token (cur text t : str) :
  Forall (λ c, isspace c = false) cur →
  t ∈ split_from cur text →
  t ≠ [] ∧ Forall (λ c, isspace c = false) t
  ∧ ∀ c, c ∈ t → c ∈ cur ∨ c ∈ text.
Proof.
  revert cur. induction text as [|c text IH]; intros cur Hcur.
  - cbn [split_from]. destruct cur as [|a cur]; [by intros ?%elem_of_nil|].
    intros ->%list_elem_of_singleton. split_and!.
    + intros Hnil. apply (f_equal length) in Hnil.
      rewrite length_rev in Hnil. discriminate Hnil.
    + apply list.Forall_forall. intros x Hx. apply list_elem_of_In, in_rev in Hx.
      apply list_elem_of_In in Hx. by apply (proj1 (list.Forall_forall _ _) Hcur).
    + intros x Hx. left. apply list_elem_of_In, in_rev in Hx.
      by apply list_elem_of_In.
  - cbn [split_from]. destruct (isspace c) eqn:Hc.
    + assert (t ∈ split_from [] text →
              t ≠ [] ∧ Forall (λ c, isspace c = false) t
              ∧ ∀ c0, c0 ∈ t → c0 ∈ cur ∨ c0 ∈ c :: text) as Hrest.
      { intros Ht. destruct (IH [] (Forall_nil_2 _) Ht) as (? & ? & Hsub).
        split_and!; [done..|]. intros x Hx.
        destruct (Hsub x Hx) as [Hin|Hin]; [by apply elem_of_nil in Hin|].
        right. by right. }
      destruct cur as [|a cur]; [exact Hrest|].
      intros [->|Ht]%elem_of_cons; [|by apply Hrest].
      split_and!.
      * intros Hnil. apply (f_equal length) in Hnil.
        rewrite length_rev in Hnil. discriminate Hnil.
      * apply list.Forall_forall. intros x Hx. apply list_elem_of_In, in_rev in Hx.
        apply list_elem_of_In in Hx.
        by apply (proj1 (list.Forall_forall _ _) Hcur).
      * intros x Hx. left. apply list_elem_of_In, in_rev in Hx.
        by apply list_elem_of_In.
    + intros Ht.
      destruct (IH (c :: cur) (Forall_cons_2 _ _ _ Hc Hcur) Ht)
        as (? & ? & Hsub).
      split_and!; [done..|]. intros x Hx.
      destruct (Hsub x Hx) as [[->|Hin]%elem_of_cons|Hin].
      * right. by left.
      * by left.
      * right. by right.
Qed.

(** X1. Every token that line 24 passes to the spelling model is not
    empty and is made of characters of the cell that are neither white
    space nor punctuation. *)
Theorem tokens_clean (cell : Cell) (t : str) :
  t ∈ tokens cell →
  t ≠ []
  ∧ ∀ c, c ∈ t → isspace c = false ∧ (c ∉ punctuation) ∧ c ∈ source cell.
Proof.
  unfold tokens, split. intros Ht.
  destruct (split_from_token [] _ t (Forall_nil_2 _) Ht) as (Hne & Hsp & Hsub).
  split; [done|]. intros c Hc. split; [by apply (proj1 (list.Forall_forall _ _) Hsp)|].
  destruct (Hsub c Hc) as [Hin|Hin]; [by apply elem_of_nil in Hin|].
  rewrite remove_punctuation_filter in Hin.
  by apply list_elem_of_filter in Hin as [? ?].
Qed.

Lemma split_from_remove_punctuation (cur text : str) :
  split_from (remove_punctuation cur) (remove_punctuation text)
  = filter (λ t, t ≠ []) (remove_punctuation <$> split_from cur text).
Proof.
  assert (∀ cur : str,
            match remove_punctuation cur with
            | [] => []
            | _ => [rev (remove_punctuation cur)]
            end
            = filter (λ t, t ≠ []) [remove_punctuation (rev cur)]) as Hlast.
  { intros cur'. rewrite remove_punctuation_rev.
    destruct (remove_punctuation cur') as [|a l] eqn:Hcur.
    - by rewrite filter_cons_False by (intros H; by apply H).
    - rewrite filter_cons_True; [done|].
      intros Hnil. apply (f_equal length) in Hnil.
      rewrite length_rev in Hnil. discriminate Hnil. }
  revert cur. induction text as [|c text IH]; intros cur.
  - change (remove_punctuation []) with (@nil N). cbn [split_from].
    rewrite Hlast. by destruct cur.
  - rewrite remove_punctuation_cons. cbn [split_from].
    destruct (decide (c ∈ punctuation)) as [Hp|Hp].
    + rewrite (punctuation_not_space c Hp).
      rewrite <- IH. by rewrite remove_punctuation_cons, decide_True.
    + cbn [split_from]. destruct (isspace c) eqn:Hc.
      * specialize (IH []). change (remove_punctuation []) with (@nil N) in IH.
        destruct cur as [|a cur].
        { change (remove_punctuation []) with (@nil N). exact IH. }
        cbn [fmap list_fmap].
        change (list_fmap _ _ ?f ?l) with (f <$> l).
        rewrite (filter_cons (λ t : str, t ≠ [])), <- IH.
        rewrite remove_punctuation_rev.
        destruct (remove_punctuation (a :: cur)) as [|b l] eqn:Hcur.
        { by rewrite decide_False by (intros H; by apply H). }
        rewrite decide_True; [done|].
        intros Hnil. apply (f_equal length) in Hnil.
        rewrite length_rev in Hnil. discriminate Hnil.
      * rewrite <- IH. by rewrite remove_punctuation_cons, decide_False.
Qed.

(** X2. Removing the punctuation never joins two words and never splits
    one: the tokens of the text without punctuation are the tokens of the
    text, each without its punctuation, less those of which nothing is
    left. *)
Theorem split_remove_punctuation (text : str) :
  split (remove_punctuation text)
  = filter (λ t, t ≠ []) (remove_punctuation <$> split text).
Proof. apply (split_from_remove_punctuation [] text). Qed.

(** X3. [remove_punctuation] distributes over concatenation, never
    lengthens its argument, and returns its argument unchanged exactly
    when the argument holds no punctuation. *)
Theorem remove_punctuation_compose (a b : str) :
  remove_punctuation (a ++ b) = remove_punctuation a ++ remove_punctuation b
  ∧ (length (remove_punctuation a) ≤ length a)%nat
  ∧ (remove_punctuation a = a ↔ ∀ c, c ∈ a → c ∉ punctuation).
Proof.
  rewrite !remove_punctuation_filter. split_and!.
  - apply list.filter_app.
  - apply length_filter.
  - split.
    + intros Heq c Hc. rewrite <- Heq in Hc.
      by apply list_elem_of_filter in Hc as [? ?].
    + intros Hall. induction a as [|c a IH]; [done|].
      rewrite filter_cons_True by (apply Hall; by left).
      f_equal. apply IH. intros x Hx. apply Hall. by right.
Qed.

(** ** The further properties on the sample trees *)

Lemma tokens_clean_witness :
  lit "world" ≠ []
  ∧ ∀ c, c ∈ lit "world" →
         isspace c = false ∧ (c ∉ punctuation) ∧ c ∈ lit "Hello, world!".
Proof.
  apply (tokens_clean
           {| cell_type := lit "markdown"; source := lit "Hello, world!" |}
           (lit "world")).
  change (lit "world" ∈ [lit "Hello"; lit "world"]).
  apply elem_of_cons. right. apply elem_of_cons. by left.
Defined.

Lemma spell_check_notebook_words_witness :
  (∃ d ws,
     (spell_check_notebook Sample.en id Sample.checks_all Sample.fs
        Sample.bad_path 0 Sample.w0).1 = Ok d
     ∧ Dict.get Sample.bad_path d = Some ws ∧ lit "helllo" ∈ ws)
  ↔ ∃ cell t, cell ∈ cells Sample.bad ∧ cell_type cell = lit "markdown"
              ∧ t ∈ tokens cell
              ∧ Sample.checks_all
                  (dictionary (seeded Sample.en id (heap Sample.w0 0))) t
                = true
              ∧ ¬ known id (seeded Sample.en id (heap Sample.w0 0)) t
              ∧ lit "helllo" = lower id t.
Proof.
  apply (spell_check_notebook_words Sample.en id Sample.checks_all Sample.fs
           Sample.bad_path 0 Sample.w0 Sample.bad (lit "helllo")).
  reflexivity.
Defined.

Lemma only_markdown_cells_matter_witness :
  ∃ d1 d2,
    (spell_check_notebook Sample.en id Sample.checks_all Sample2.fs
       Sample2.first_path 1 Sample.w0).1 = Ok d1
    ∧ (spell_check_notebook Sample.en id Sample.checks_all Sample2.fs
         Sample2.second_path 1 Sample.w0).1 = Ok d2
    ∧ d1.*2 = d2.*2.
Proof.
  apply (only_markdown_cells_matter Sample.en id Sample.checks_all Sample2.fs
           Sample2.first_path Sample2.second_path 1 Sample.w0
           Sample2.first Sample2.second).
  - reflexivity.
  - reflexivity.
  - vm_compute. apply Permutation_swap.
Defined.

Lemma ignore_list_ignores_case_witness :
  (spell_check_notebook ∅ id Sample.checks_all Sample2.fs
     Sample2.first_path 0 Sample2.w0).1 = Ok [].
Proof.
  apply (ignore_list_ignores_case ∅ id Sample.checks_all Sample2.fs
           Sample2.first_path 0 Sample2.w0 Sample2.first).
  - reflexivity.
  - intros cell t Hcell Hm Ht.
    apply elem_of_cons in Hcell as [->|Hcell];
      [|apply elem_of_cons in Hcell as [->|Hcell];
        [|apply list_elem_of_singleton in Hcell as ->]].
    + change (t ∈ [lit "Helllo"; lit "there"]) in Ht.
      apply elem_of_cons in Ht as [->|Ht];
        [|apply list_elem_of_singleton in Ht as ->].
      * exists (lit "HELLLO"). split; [by left|reflexivity].
      * exists (lit "There"). split; [right; by left|reflexivity].
    + vm_compute in Hm. discriminate Hm.
    + change (t ∈ [lit "NumPy"; lit "rocks"]) in Ht.
      apply elem_of_cons in Ht as [->|Ht];
        [|apply list_elem_of_singleton in Ht as ->].
      * exists (lit "numpy"). split; [do 2 right; by left|reflexivity].
      * exists (lit "ROCKS"). split; [do 3 right; by left|reflexivity].
Defined.


Lemma aggregate_holds_the_words_witness :
  Dict.get Sample.bad_path
    [(Sample.bad_path, ({[ lit "helllo"; lit "wrold" ]} : gset str))]
  = if decide (Sample.bad_path ∈ notebook_paths (os_walk Sample.fs (lit "."))
               ∧ words_at Sample.en id Sample.checks_all Sample.fs
                   (heap Sample.w0 0) Sample.bad_path ≠ ∅)
    then Some (words_at Sample.en id Sample.checks_all Sample.fs
                 (heap Sample.w0 0) Sample.bad_path)
    else None.
Proof.
  apply (aggregate_holds_the_words Sample.en id Sample.checks_all Sample.fs
           (lit ".") 0 Sample.w0).
  vm_compute. reflexivity.
Defined.
